(** * A sequential model of the object pool in [pool.go]

    The pool keeps a deque of idle objects, a counter of active objects, a
    closed flag and a condition variable.  Its three callbacks ([New],
    [TestOnBorrow], [DropCallback]) and the clock [nowFunc] belong to the
    caller; they are modelled as functions over an abstract [World] that is
    threaded through every call, so that the order and the arguments of the
    calls are visible in the world a pool operation returns.

    Every operation is modelled as it runs when no other goroutine
    interleaves with it: the mutex [mu] is therefore not represented.  A
    [Get] that reaches [cond.Wait()] parks; the part of [Get] that a woken
    goroutine runs again is [get_loop]. *)

From Stdlib Require Import ZArith List Bool Lia Sorted.
From Stdlib Require String.
Import String.StringSyntax.
Delimit Scope string_scope with string.
Import ListNotations.
Open Scope Z_scope.

(** ** Go's [int] *)

Module GoInt.

Definition min_int : Z := - 2 ^ 63.
Definition max_int : Z := 2 ^ 63 - 1.

(** Two's complement wrap-around of a 64-bit signed integer. *)
Definition wrap (z : Z) : Z := (z + 2 ^ 63) mod 2 ^ 64 - 2 ^ 63.

Definition in_range (z : Z) : Prop := min_int <= z <= max_int.

End GoInt.

(** ** The part of [container/list] the pool uses

    A list is kept front first. *)

Module GoList.
Section Ops.
Context {A : Type}.

Definition Len (l : list A) : Z := Z.of_nat (length l).
Definition PushFront (x : A) (l : list A) : list A := x :: l.
Definition Front (l : list A) : option A := hd_error l.
Definition Back (l : list A) : option A :=
  match l with
  | [] => None
  | x :: _ => Some (last l x)
  end.
Definition RemoveFront (l : list A) : list A := tl l.
Definition RemoveBack (l : list A) : list A := removelast l.

End Ops.
End GoList.

Import GoInt GoList.

(** ** Errors *)

Inductive error : Type :=
| ErrPoolClosed
| ErrPoolExhausted
| ErrOther (msg : String.string).

(** ** The pool *)

Section PoolModel.

(** Non-nil dynamic values, the callers' environment and the clock.  Times
    and durations are integer counts of nanoseconds. *)
Variable Obj : Type.
Variable World : Type.
Variable nowFunc : World -> Z * World.

(** A value of type [interface{}]: [None] is [nil]. *)
Definition iface : Type := option Obj.

Record idleObj : Type := mkIdle { obj : iface; t : Z }.

Definition factory : Type := World -> (iface * option error) * World.
Definition validator : Type := iface -> World -> option error * World.
Definition dropper : Type := iface -> World -> World.

(** [cond] is [None] while the condition variable is nil; [Some n] is a
    condition variable on which [n] goroutines wait unsignalled. *)
Record Pool : Type := mkPool {
  New : option factory;
  TestOnBorrow : option validator;
  DropCallback : option dropper;
  MaxIdle : Z;
  MaxActive : Z;
  IdleTimeout : Z;
  Wait : bool;
  cond : option nat;
  closed : bool;
  active : Z;
  idle : list idleObj
}.

Definition set_cond (p : Pool) (c : option nat) : Pool :=
  mkPool (New p) (TestOnBorrow p) (DropCallback p) (MaxIdle p) (MaxActive p)
         (IdleTimeout p) (Wait p) c (closed p) (active p) (idle p).
Definition set_closed (p : Pool) (b : bool) : Pool :=
  mkPool (New p) (TestOnBorrow p) (DropCallback p) (MaxIdle p) (MaxActive p)
         (IdleTimeout p) (Wait p) (cond p) b (active p) (idle p).
Definition set_active (p : Pool) (a : Z) : Pool :=
  mkPool (New p) (TestOnBorrow p) (DropCallback p) (MaxIdle p) (MaxActive p)
         (IdleTimeout p) (Wait p) (cond p) (closed p) a (idle p).
Definition set_idle (p : Pool) (l : list idleObj) : Pool :=
  mkPool (New p) (TestOnBorrow p) (DropCallback p) (MaxIdle p) (MaxActive p)
         (IdleTimeout p) (Wait p) (cond p) (closed p) (active p) l.

Definition NewPool (new : option factory) (maxIdle : Z) : Pool :=
  mkPool new None None maxIdle 0 0 false None false 0 [].

(** [sync.Cond]: [Signal] wakes one waiter if there is one, [Broadcast]
    wakes them all, [Wait] adds the caller to the waiters. *)
Definition Signal (c : nat) : nat := Nat.pred c.
Definition Broadcast (c : nat) : nat := O.

Definition signal_if_cond (p : Pool) : Pool :=
  match cond p with
  | Some c => set_cond p (Some (Signal c))
  | None => p
  end.

Definition release (p : Pool) : Pool :=
  signal_if_cond (set_active p (wrap (active p - 1))).

(** [if drop != nil { drop(x) }] *)
Definition call_drop (drop : option dropper) (x : iface) (w : World) : World :=
  match drop with
  | Some d => d x w
  | None => w
  end.

(** What a call of [Get] comes to: it returns, it panics, or it is parked
    in [cond.Wait()]. *)
Inductive outcome : Type :=
| Returned (x : iface) (err : option error)
| Panicked
| Parked.

(** The loop that clears expired objects, [n] iterations at most. *)
Fixpoint sweep (n : nat) (timeout : Z) (drop : option dropper)
         (p : Pool) (w : World) : Pool * World :=
  match n with
  | O => (p, w)
  | S n' =>
      match Back (idle p) with
      | None => (p, w)
      | Some io =>
          let (now, w1) := nowFunc w in
          if now <? t io + timeout then (p, w1)
          else
            let p1 := release (set_idle p (RemoveBack (idle p))) in
            sweep n' timeout drop p1 (call_drop drop (obj io) w1)
      end
  end.

Definition sweep_phase (p : Pool) (w : World) : Pool * World :=
  let timeout := IdleTimeout p in
  if 0 <? timeout
  then sweep (length (idle p)) timeout (DropCallback p) p w
  else (p, w).

(** The loop that takes idle objects from the front, [n] iterations at
    most.  [Some x] is the object [Get] returns from inside the loop. *)
Fixpoint reuse (n : nat) (drop : option dropper)
         (p : Pool) (w : World) : option iface * Pool * World :=
  match n with
  | O => (None, p, w)
  | S n' =>
      match idle p with
      | [] => (None, p, w)
      | io :: rest =>
          let p1 := set_idle p rest in
          match TestOnBorrow p1 with
          | None => (Some (obj io), p1, w)
          | Some test =>
              match test (obj io) w with
              | (None, w1) => (Some (obj io), p1, w1)
              | (Some _, w1) =>
                  reuse n' drop (release p1) (call_drop drop (obj io) w1)
              end
          end
      end
  end.

Definition reuse_phase (p : Pool) (w : World) : option iface * Pool * World :=
  reuse (length (idle p)) (DropCallback p) p w.

(** [cond.Wait()], after [cond] was created if it was nil. *)
Definition park (p : Pool) : Pool :=
  match cond p with
  | None => set_cond p (Some 1%nat)
  | Some c => set_cond p (Some (S c))
  end.

(** From the closed check to the end of the body of [for { ... }]. *)
Definition acquire (p : Pool) (w : World) : outcome * Pool * World :=
  if closed p then (Returned None (Some ErrPoolClosed), p, w)
  else if (MaxActive p =? 0) || (active p <? MaxActive p) then
    let newFunc := New p in
    let p1 := set_active p (wrap (active p + 1)) in
    match newFunc with
    | None => (Panicked, p1, w)
    | Some f =>
        match f w with
        | ((x, None), w1) => (Returned x None, p1, w1)
        | ((_, Some e), w1) => (Returned None (Some e), release p1, w1)
        end
    end
  else if negb (Wait p) then (Returned None (Some ErrPoolExhausted), p, w)
  else (Parked, park p, w).

(** One round of [for { ... }]; a woken waiter starts here again. *)
Definition get_loop (p : Pool) (w : World) : outcome * Pool * World :=
  match reuse_phase p w with
  | (Some x, p1, w1) => (Returned x None, p1, w1)
  | (None, p1, w1) => acquire p1 w1
  end.

Definition Get (p : Pool) (w : World) : outcome * Pool * World :=
  let (p1, w1) := sweep_phase p w in
  get_loop p1 w1.

Definition Put (p : Pool) (x : iface) (w : World) : Pool * World :=
  if closed p then (release p, call_drop (DropCallback p) x w)
  else
    let (now, w1) := nowFunc w in
    let p1 := set_idle p (PushFront (mkIdle x now) (idle p)) in
    if MaxIdle p1 <? Len (idle p1) then
      let evicted := obj (last (idle p1) (mkIdle x now)) in
      let p2 := set_idle p1 (RemoveBack (idle p1)) in
      (release p2, call_drop (DropCallback p2) evicted w1)
    else (signal_if_cond p1, w1).

Definition ActiveCount (p : Pool) : Z := active p.

Definition Close (p : Pool) (w : World) : Pool * World :=
  let snapshot := idle p in
  let p1 := set_idle p [] in
  let p2 := set_closed p1 true in
  let p3 := set_active p2 (wrap (active p2 - Len snapshot)) in
  let p4 :=
    match cond p3 with
    | Some c => set_cond p3 (Some (Broadcast c))
    | None => p3
    end in
  match DropCallback p4 with
  | None => (p4, w)
  | Some d => (p4, fold_left (fun w' io => d (obj io) w') snapshot w)
  end.

(** [framed p q]: [q] has the configuration and the closed flag of [p]. *)
Definition framed (p q : Pool) : Prop :=
  New q = New p /\ TestOnBorrow q = TestOnBorrow p /\
  DropCallback q = DropCallback p /\ MaxIdle q = MaxIdle p /\
  MaxActive q = MaxActive p /\ IdleTimeout q = IdleTimeout p /\
  Wait q = Wait p /\ closed q = closed p.

(** [counted k n p]: besides the idle objects at least [k] more objects are
    counted in [active], which is at most [n]. *)
Definition counted (k n : Z) (p : Pool) : Prop :=
  Len (idle p) + k <= active p <= n.

(** What a result of [Get] adds to the objects that callers hold. *)
Definition gain (r : outcome) : Z :=
  match r with
  | Returned _ None => 1
  | _ => 0
  end.

(** [trimmed p]: the idle deque is within [MaxIdle]; a negative [MaxIdle]
    keeps nothing. *)
Definition trimmed (p : Pool) : Prop := Len (idle p) <= Z.max 0 (MaxIdle p).

(** [terminal p]: closed, with nothing idle. *)
Definition terminal (p : Pool) : Prop := closed p = true /\ idle p = [].

(** The condition under which the exhaustion branch of [Get] is taken:
    what the sweep and the reuse loop leave is open, does not wait, and
    its active count has reached a limit that is set. *)
Definition exhausted_after_reuse (p : Pool) (w : World) : Prop :=
  let (p1, w1) := sweep_phase p w in
  let '(c, p2, w2) := reuse_phase p1 w1 in
  c = None /\ idle p2 = [] /\ closed p2 = false /\ Wait p2 = false /\
  MaxActive p2 <> 0 /\ MaxActive p2 <= active p2.

(** The callbacks of a sweep.  The sweep reads the clock for the oldest
    entry, drops it, reads the clock for the next one, and so on:
    [swept_world drop l w] is the world after that was done for the entries
    of [l], oldest first, and [expired_in_turn timeout drop l w] says that
    every entry of [l] had the age [timeout] or more at the reading made
    for it. *)
Fixpoint swept_world (drop : option dropper) (l : list idleObj) (w : World)
  : World :=
  match l with
  | [] => w
  | io :: rest =>
      swept_world drop rest (call_drop drop (obj io) (snd (nowFunc w)))
  end.

Fixpoint expired_in_turn (timeout : Z) (drop : option dropper)
         (l : list idleObj) (w : World) : Prop :=
  match l with
  | [] => True
  | io :: rest =>
      timeout <= fst (nowFunc w) - t io /\
      expired_in_turn timeout drop rest
                      (call_drop drop (obj io) (snd (nowFunc w)))
  end.

(** The callbacks of the reuse loop on candidates that the validator
    rejects.  The loop calls the validator on the candidate at the front and
    then drops it, and so on: [rejected_world test drop l w] is the world
    after that was done for the entries of [l], front first, and
    [rejected_in_turn test drop l w] says that the validator returned an
    error for every entry of [l] when it was called on it. *)
Fixpoint rejected_world (test : validator) (drop : option dropper)
         (l : list idleObj) (w : World) : World :=
  match l with
  | [] => w
  | io :: rest =>
      rejected_world test drop rest
                     (call_drop drop (obj io) (snd (test (obj io) w)))
  end.

Fixpoint rejected_in_turn (test : validator) (drop : option dropper)
         (l : list idleObj) (w : World) : Prop :=
  match l with
  | [] => True
  | io :: rest =>
      fst (test (obj io) w) <> None /\
      rejected_in_turn test drop rest
                       (call_drop drop (obj io) (snd (test (obj io) w)))
  end.

(** [same_config p q]: [q] has the configuration of [p]. *)
Definition same_config (p q : Pool) : Prop :=
  New q = New p /\ TestOnBorrow q = TestOnBorrow p /\
  DropCallback q = DropCallback p /\ MaxIdle q = MaxIdle p /\
  MaxActive q = MaxActive p /\ IdleTimeout q = IdleTimeout p /\
  Wait q = Wait p.

(** [surplus p]: what [active] counts besides the idle objects. *)
Definition surplus (p : Pool) : Z := active p - Len (idle p).

(** Between two evictions: the surplus of [p], and an active count between
    the idle objects with [k] more and the active count of [p]. *)
Definition settled (k : Z) (p q : Pool) : Prop :=
  surplus q = surplus p /\ Len (idle q) + k <= active q <= active p.

(** [panics r] is 1 for a call of [Get] that panicked. *)
Definition panics (r : outcome) : Z :=
  match r with
  | Panicked => 1
  | _ => 0
  end.

(** [monotone clk p]: the clock [clk] of the world never goes back: a
    reading of [nowFunc] lies between the clock before and after it, and no
    callback of [p] sets the clock back. *)
Definition monotone (clk : World -> Z) (p : Pool) : Prop :=
  (forall v, clk v <= fst (nowFunc v) <= clk (snd (nowFunc v))) /\
  (forall f v, New p = Some f -> clk v <= clk (snd (f v))) /\
  (forall g x v, TestOnBorrow p = Some g -> clk v <= clk (snd (g x v))) /\
  (forall d x v, DropCallback p = Some d -> clk v <= clk (d x v)).

(** [segment l m]: [m] is [l] without some entries at its front and at
    its back. *)
Definition segment (l m : list idleObj) : Prop :=
  exists a b, l = a ++ m ++ b.

(** [newest_first l]: no entry of [l] is older than an entry behind it. *)
Definition newest_first (l : list idleObj) : Prop :=
  StronglySorted (fun a b => t b <= t a) l.

(** [timed clk s]: the idle entries are newest first and none is younger
    than the clock. *)
Definition timed (clk : World -> Z) (s : Pool * World) : Prop :=
  newest_first (idle (fst s)) /\
  Forall (fun io => t io <= clk (snd s)) (idle (fst s)).

(** ** Sequences of calls

    [OpResume] is a goroutine parked in [Get] that was woken and runs the
    body of [for { ... }] again.  A state of a run is the pool, the world
    and the objects that callers hold: those a [Get] returned with a nil
    error and that were not yet given back. *)
Inductive op : Type :=
| OpGet
| OpResume
| OpPut (x : iface)
| OpClose
| OpActiveCount.

Definition apply_op (o : op) (s : Pool * World) : Pool * World :=
  match o with
  | OpGet => let '(_, p', w') := Get (fst s) (snd s) in (p', w')
  | OpResume => let '(_, p', w') := get_loop (fst s) (snd s) in (p', w')
  | OpPut x => Put (fst s) x (snd s)
  | OpClose => Close (fst s) (snd s)
  | OpActiveCount => s
  end.

Definition exec (tr : list op) (s : Pool * World) : Pool * World :=
  fold_left (fun s' o => apply_op o s') tr s.

(** The unexported fields of a pool nobody has used yet. *)
Definition fresh (p : Pool) : Prop :=
  cond p = None /\ closed p = false /\ active p = 0 /\ idle p = [].

Definition borrowed (r : outcome) (held : list iface) : list iface :=
  match r with
  | Returned x None => x :: held
  | _ => held
  end.

Definition state : Type := Pool * World * list iface.

(** One call of a client that gives back only what it holds. *)
Inductive step : state -> op -> state -> Prop :=
| step_get p w held r p' w' :
    Get p w = (r, p', w') ->
    step (p, w, held) OpGet (p', w', borrowed r held)
| step_resume p w held r p' w' :
    get_loop p w = (r, p', w') ->
    step (p, w, held) OpResume (p', w', borrowed r held)
| step_put p w held1 x held2 p' w' :
    Put p x w = (p', w') ->
    step (p, w, held1 ++ x :: held2) (OpPut x) (p', w', held1 ++ held2)
| step_close p w held p' w' :
    Close p w = (p', w') ->
    step (p, w, held) OpClose (p', w', held)
| step_active p w held :
    step (p, w, held) OpActiveCount (p, w, held).

Inductive run (s0 : state) : list op -> state -> Prop :=
| run_nil : run s0 [] s0
| run_snoc tr s o s' :
    run s0 tr s -> step s o s' -> run s0 (tr ++ [o]) s'.

End PoolModel.

Arguments mkIdle {Obj} obj t.
Arguments obj {Obj} i.
Arguments t {Obj} i.
Arguments mkPool {Obj World}.
Arguments New {Obj World} p.
Arguments TestOnBorrow {Obj World} p.
Arguments DropCallback {Obj World} p.
Arguments MaxIdle {Obj World} p.
Arguments MaxActive {Obj World} p.
Arguments IdleTimeout {Obj World} p.
Arguments Wait {Obj World} p.
Arguments cond {Obj World} p.
Arguments closed {Obj World} p.
Arguments active {Obj World} p.
Arguments idle {Obj World} p.
Arguments set_cond {Obj World} p c.
Arguments set_closed {Obj World} p b.
Arguments set_active {Obj World} p a.
Arguments set_idle {Obj World} p l.
Arguments NewPool {Obj World} new maxIdle.
Arguments framed {Obj World} p q.
Arguments counted {Obj World} k n p.
Arguments gain {Obj} r.
Arguments same_config {Obj World} p q.
Arguments swept_world {Obj World} nowFunc drop l w.
Arguments expired_in_turn {Obj World} nowFunc timeout drop l w.
Arguments rejected_world {Obj World} test drop l w.
Arguments rejected_in_turn {Obj World} test drop l w.
Arguments surplus {Obj World} p.
Arguments newest_first {Obj} l.
Arguments monotone {Obj World} nowFunc clk p.
Arguments segment {Obj} l m.
Arguments timed {Obj World} clk s.
Arguments settled {Obj World} k p q.
Arguments panics {Obj} r.
Arguments exhausted_after_reuse {Obj World} nowFunc p w.
Arguments trimmed {Obj World} p.
Arguments terminal {Obj World} p.
Arguments signal_if_cond {Obj World} p.
Arguments release {Obj World} p.
Arguments call_drop {Obj World} drop x w.
Arguments Returned {Obj} x err.
Arguments Panicked {Obj}.
Arguments Parked {Obj}.
Arguments sweep {Obj World} nowFunc n timeout drop p w.
Arguments sweep_phase {Obj World} nowFunc p w.
Arguments reuse {Obj World} n drop p w.
Arguments reuse_phase {Obj World} p w.
Arguments park {Obj World} p.
Arguments acquire {Obj World} p w.
Arguments get_loop {Obj World} p w.
Arguments Get {Obj World} nowFunc p w.
Arguments Put {Obj World} nowFunc p x w.
Arguments ActiveCount {Obj World} p.
Arguments Close {Obj World} p w.
Arguments OpGet {Obj}.
Arguments OpResume {Obj}.
Arguments OpPut {Obj} x.
Arguments OpClose {Obj}.
Arguments OpActiveCount {Obj}.
Arguments apply_op {Obj World} nowFunc o s.
Arguments exec {Obj World} nowFunc tr s.
Arguments fresh {Obj World} p.
Arguments borrowed {Obj} r held.
Arguments step {Obj World} nowFunc _ _ _.
Arguments run {Obj World} nowFunc s0 _ _.
Arguments step_get {Obj World} nowFunc p w held r p' w' _.
Arguments step_resume {Obj World} nowFunc p w held r p' w' _.
Arguments step_put {Obj World} nowFunc p w held1 x held2 p' w' _.
Arguments step_close {Obj World} nowFunc p w held p' w' _.
Arguments step_active {Obj World} nowFunc p w held.
Arguments run_nil {Obj World} nowFunc s0.
Arguments run_snoc {Obj World} nowFunc s0 tr s o s' _ _.

(** ** A concrete environment

    The dialer of the test suite: objects are numbered in the order they are
    made, the world counts the objects made and lists the objects dropped in
    the order [DropCallback] received them.  The clock is part of the world
    and moves only when the client moves it. *)

Module Demo.

Record World : Type := mkWorld {
  clock : Z;
  dialed : nat;
  dropped : list (option nat)
}.

Definition start : World := mkWorld 0 0 [].

Definition nowFunc (w : World) : Z * World := (clock w, w).

Definition advance (d : Z) (w : World) : World :=
  mkWorld (clock w + d) (dialed w) (dropped w).

Definition dial : factory nat World :=
  fun w => ((Some (dialed w), None),
            mkWorld (clock w) (S (dialed w)) (dropped w)).

Definition drop : dropper nat World :=
  fun x w => mkWorld (clock w) (dialed w) (dropped w ++ [x]).

Definition reject : validator nat World :=
  fun _ w => (Some (ErrOther "err"%string), w).

(** A factory that hands on the sentinel of an exhausted pool, as a pool
    whose objects come from another pool does. *)
Definition dial_exhausted : factory nat World :=
  fun w => ((None, Some ErrPoolExhausted), w).

Definition dial_broken : factory nat World :=
  fun w => ((Some (dialed w), Some (ErrOther "dial"%string)), w).

(** A pool without a limit whose factory is [dial_exhausted]. *)
Definition relay_pool : Pool nat World :=
  mkPool (Some dial_exhausted) None None 2 0 0 false None false 0 [].

(** [NewPool(dial, maxIdle)] with [DropCallback] set. *)
Definition pool (maxIdle : Z) : Pool nat World :=
  mkPool (Some dial) None (Some drop) maxIdle 0 0 false None false 0 [].

(** Two objects are taken from [pool 2]; object 0 is put back at time 0
    and object 1 at time 5. *)
Definition two_idle : Pool nat World * World :=
  let s := exec nowFunc [OpGet; OpGet] (pool 2, start) in
  let s := Put nowFunc (fst s) (Some 0%nat) (snd s) in
  Put nowFunc (fst s) (Some 1%nat) (advance 5 (snd s)).

(** A pool of at most two active objects, both held by callers. *)
Definition both_held : Pool nat World * World :=
  exec nowFunc [OpGet; OpGet]
       (mkPool (Some dial) None (Some drop) 2 2 0 false None false 0 [], start).

(** A pool with a timeout of one second in which object 0 has been idle
    for one second. *)
Definition one_second_idle : Pool nat World * World :=
  let s := exec nowFunc [OpGet; OpPut (Some 0%nat)]
                (mkPool (Some dial) None (Some drop) 2 0 1000000000
                        false None false 0 [], start) in
  (fst s, advance 1000000000 (snd s)).


(** A pool whose factory fails. *)
Definition broken_pool : Pool nat World :=
  mkPool (Some dial_broken) None (Some drop) 2 0 0 false None false 0 [].

(** A clock that moves: every reading takes one unit of time. *)
Definition tick (w : World) : Z * World := (clock w, advance 1 w).

(** A pool with a timeout of 10 under the clock [tick]: object 0 was put
    back at time 0, object 1 at time 5, object 2 at time 12, and it is time
    14.  At 14 object 1 is younger than the timeout; it is not at 15, when
    the sweep reads the clock for it. *)
Definition ticking : Pool nat World * World :=
  let s := exec tick [OpGet; OpGet; OpGet]
                (mkPool (Some dial) None (Some drop) 3 0 10
                        false None false 0 [], start) in
  let s := Put tick (fst s) (Some 0%nat) (snd s) in
  let s := Put tick (fst s) (Some 1%nat) (advance 4 (snd s)) in
  let s := Put tick (fst s) (Some 2%nat) (advance 6 (snd s)) in
  (fst s, advance 1 (snd s)).

(** A validator that rejects object 1 and accepts every other object;
    every call of it takes one unit of time, which shows in the world. *)
Definition picky : validator nat World :=
  fun x w =>
    (match x with
     | Some 1%nat => Some (ErrOther "stale"%string)
     | _ => None
     end,
     advance 1 w).

(** A pool with the validator [picky]: object 0 was put back before
    object 1, which is at the front. *)
Definition picky_pool : Pool nat World * World :=
  exec nowFunc [OpGet; OpGet; OpPut (Some 0%nat); OpPut (Some 1%nat)]
       (mkPool (Some dial) (Some picky) (Some drop) 2 0 0
               false None false 0 [], start).

(** A pool of at most two active objects. *)
Definition limited : Pool nat World :=
  mkPool (Some dial) None (Some drop) 2 2 0 false None false 0 [].

(** A pool whose MaxActive is negative. *)
Definition barren : Pool nat World :=
  mkPool (Some dial) None (Some drop) 2 (-1) 0 false None false 0 [].

(** The pool of TestWaitPool, its one object held by a caller. *)
Definition waiting : Pool nat World * World :=
  exec nowFunc [OpGet]
       (mkPool (Some dial) None None 1 1 0 true None false 0 [], start).

(** A pool with a timeout of 10: object 0 was put back at time 0, object 1
    at time 5, and it is time 12. *)
Definition aging : Pool nat World * World :=
  let s := exec nowFunc [OpGet; OpGet]
                (mkPool (Some dial) None (Some drop) 2 0 10
                        false None false 0 [], start) in
  let s := Put nowFunc (fst s) (Some 0%nat) (snd s) in
  let s := Put nowFunc (fst s) (Some 1%nat) (advance 5 (snd s)) in
  (fst s, advance 7 (snd s)).

(** The test suite's view of a pool: objects made, objects open (made and
    not dropped), active count. *)
Definition check (s : Pool nat World * World) : nat * Z * Z :=
  (dialed (snd s),
   Z.of_nat (dialed (snd s)) - Z.of_nat (length (dropped (snd s))),
   ActiveCount (fst s)).

Definition borrow (s : Pool nat World * World)
  : outcome nat * (Pool nat World * World) :=
  let '(r, p, w) := Get nowFunc (fst s) (snd s) in (r, (p, w)).

Definition object (r : outcome nat) : iface nat :=
  match r with
  | Returned x _ => x
  | _ => None
  end.

Definition give (x : iface nat) (s : Pool nat World * World)
  : Pool nat World * World :=
  Put nowFunc (fst s) x (snd s).

(** The bodies of the loops of TestPoolReuse, TestPoolMaxIdle and
    TestPoolBorrowCheck. *)
Definition round2 (s : Pool nat World * World) : Pool nat World * World :=
  let (r1, s) := borrow s in
  let (r2, s) := borrow s in
  give (object r2) (give (object r1) s).

Definition round3 (s : Pool nat World * World) : Pool nat World * World :=
  let (r1, s) := borrow s in
  let (r2, s) := borrow s in
  let (r3, s) := borrow s in
  give (object r3) (give (object r2) (give (object r1) s)).

Definition round1 (s : Pool nat World * World) : Pool nat World * World :=
  let (r1, s) := borrow s in
  give (object r1) s.

End Demo.

(** * Properties *)

(** ** Machine integers and deques *)

Section Basics.
Context {A : Type}.

Lemma wrap_in_range (z : Z) : in_range (wrap z).
Proof.
  unfold in_range, wrap, min_int, max_int.
  pose proof (Z.mod_pos_bound (z + 2 ^ 63) (2 ^ 64) ltac:(lia)). lia.
Qed.

Lemma wrap_small (z : Z) : in_range z -> wrap z = z.
Proof.
  unfold in_range, wrap, min_int, max_int. intros H.
  rewrite Z.mod_small by lia. lia.
Qed.

Lemma wrap_succ_pred (z : Z) : in_range z -> wrap (wrap (z + 1) - 1) = z.
Proof.
  unfold in_range, wrap, min_int, max_int. intros H.
  destruct (Z.eq_dec z (2 ^ 63 - 1)) as [->|Hne].
  - reflexivity.
  - rewrite (Z.mod_small (z + 1 + 2 ^ 63)) by lia.
    replace (z + 1 + 2 ^ 63 - 2 ^ 63 - 1 + 2 ^ 63) with (z + 2 ^ 63) by lia.
    rewrite Z.mod_small by lia. lia.
Qed.

Lemma Back_snoc (l : list A) (x : A) : Back (l ++ [x]) = Some x.
Proof.
  unfold Back. destruct (l ++ [x]) eqn:E.
  - destruct l; discriminate.
  - rewrite <- E. now rewrite last_last.
Qed.

Lemma RemoveBack_snoc (l : list A) (x : A) : RemoveBack (l ++ [x]) = l.
Proof. apply removelast_last. Qed.

Lemma Back_None (l : list A) : Back l = None -> l = [].
Proof. destruct l; [reflexivity | discriminate]. Qed.

Lemma Back_Some (l : list A) (x : A) :
  Back l = Some x -> l = RemoveBack l ++ [x].
Proof.
  destruct l as [|a l]; [discriminate|]. unfold Back, RemoveBack.
  intros H. injection H as <-.
  apply (app_removelast_last (l := a :: l) a). discriminate.
Qed.

Lemma Len_snoc (l : list A) (x : A) : Len (l ++ [x]) = Len l + 1.
Proof. unfold Len. rewrite length_app. cbn. lia. Qed.

Lemma Len_cons (l : list A) (x : A) : Len (x :: l) = Len l + 1.
Proof. unfold Len. cbn [length]. lia. Qed.

Lemma Len_nonneg (l : list A) : 0 <= Len l.
Proof. unfold Len. lia. Qed.

Lemma Len_RemoveBack (l : list A) (x : A) :
  Back l = Some x -> Len l = Len (RemoveBack l) + 1.
Proof.
  intros H. rewrite (Back_Some l x H) at 1. apply Len_snoc.
Qed.

End Basics.

(** ** Frames and loop invariants *)

Section PoolFacts.
Context {Obj World : Type} (nowFunc : World -> Z * World).
Implicit Types (p q : Pool Obj World) (w : World) (x : iface Obj).

Lemma framed_refl p : framed p p.
Proof. repeat split. Qed.

Lemma framed_trans p q r : framed p q -> framed q r -> framed p r.
Proof.
  unfold framed. intros Hpq Hqr.
  decompose [and] Hpq. decompose [and] Hqr. repeat split; congruence.
Qed.

Lemma signal_if_cond_framed p : framed p (signal_if_cond p).
Proof. unfold signal_if_cond. destruct (cond p); repeat split. Qed.

Lemma signal_if_cond_idle p : idle (signal_if_cond p) = idle p.
Proof. unfold signal_if_cond. now destruct (cond p). Qed.

Lemma signal_if_cond_active p : active (signal_if_cond p) = active p.
Proof. unfold signal_if_cond. now destruct (cond p). Qed.

Lemma release_framed p : framed p (release p).
Proof. unfold release, signal_if_cond. cbn. destruct (cond p); repeat split. Qed.

Lemma release_idle p : idle (release p) = idle p.
Proof. unfold release. now rewrite signal_if_cond_idle. Qed.

Lemma release_active p : active (release p) = wrap (active p - 1).
Proof. unfold release. now rewrite signal_if_cond_active. Qed.

Lemma park_framed p : framed p (park p).
Proof. unfold park. destruct (cond p); repeat split. Qed.

Lemma park_idle p : idle (park p) = idle p.
Proof. unfold park. now destruct (cond p). Qed.

Lemma park_active p : active (park p) = active p.
Proof. unfold park. now destruct (cond p). Qed.

(** A property that survives the eviction of the back entry survives the
    sweep. *)
Lemma sweep_inv (P : Pool Obj World -> Prop) n timeout drop p w :
  (forall q io, Back (idle q) = Some io -> P q ->
                P (release (set_idle q (RemoveBack (idle q))))) ->
  P p -> P (fst (sweep nowFunc n timeout drop p w)).
Proof.
  intros Hstep. revert p w.
  induction n as [|n IH]; intros p w Hp; cbn [sweep]; [exact Hp|].
  destruct (Back (idle p)) as [io|] eqn:Hback; [|exact Hp].
  destruct (nowFunc w) as [now w1].
  destruct (now <? t io + timeout); [exact Hp|].
  apply IH. now apply Hstep with io.
Qed.

Lemma sweep_phase_inv (P : Pool Obj World -> Prop) p w :
  (forall q io, Back (idle q) = Some io -> P q ->
                P (release (set_idle q (RemoveBack (idle q))))) ->
  P p -> P (fst (sweep_phase nowFunc p w)).
Proof.
  intros Hstep Hp. unfold sweep_phase.
  destruct (0 <? IdleTimeout p); [|exact Hp].
  now apply sweep_inv.
Qed.

(** A property that survives the eviction of the front entry holds when
    the reuse loop ends without an object; when the loop returns an
    object, the pool is a pool with the property, less its front entry. *)
Lemma reuse_inv (P : Pool Obj World -> Prop) n drop p w r p' w' :
  (forall q io rest, idle q = io :: rest -> P q ->
                     P (release (set_idle q rest))) ->
  P p -> reuse n drop p w = (r, p', w') ->
  match r with
  | None => P p'
  | Some x => exists q io rest,
      P q /\ idle q = io :: rest /\ p' = set_idle q rest /\ x = obj io
  end.
Proof.
  intros Hstep. revert p w.
  induction n as [|n IH]; intros p w Hp; cbn [reuse].
  - intros [= <- <- <-]. exact Hp.
  - destruct (idle p) as [|io rest] eqn:Hidle.
    + intros [= <- <- <-]. exact Hp.
    + cbn [TestOnBorrow set_idle].
      destruct (TestOnBorrow p) as [test|].
      * destruct (test (obj io) w) as [[e|] w1].
        -- apply IH. now apply Hstep with io.
        -- intros [= <- <- <-]. now exists p, io, rest.
      * intros [= <- <- <-]. now exists p, io, rest.
Qed.

(** The reuse loop runs until the deque is empty. *)
Lemma reuse_None_empty n drop p w p' w' :
  (length (idle p) <= n)%nat ->
  reuse n drop p w = (None, p', w') -> idle p' = [].
Proof.
  revert p w. induction n as [|n IH]; intros p w Hn; cbn [reuse].
  - intros [= <- <-]. destruct (idle p); [reflexivity | cbn in Hn; lia].
  - destruct (idle p) as [|io rest] eqn:Hidle.
    + intros [= <- <-]. exact Hidle.
    + cbn [TestOnBorrow set_idle].
      destruct (TestOnBorrow p) as [test|]; [|discriminate].
      destruct (test (obj io) w) as [[e|] w1]; [|discriminate].
      apply IH. rewrite release_idle. cbn in *. lia.
Qed.

Lemma evict_back_framed q :
  framed q (release (set_idle q (RemoveBack (idle q)))).
Proof.
  eapply framed_trans; [|apply release_framed]. repeat split.
Qed.

Lemma evict_front_framed q rest : framed q (release (set_idle q rest)).
Proof.
  eapply framed_trans; [|apply release_framed]. repeat split.
Qed.

Lemma sweep_phase_framed p w : framed p (fst (sweep_phase nowFunc p w)).
Proof.
  apply (sweep_phase_inv (framed p)); [|apply framed_refl].
  intros q io _ Hq. eapply framed_trans; [exact Hq|apply evict_back_framed].
Qed.

Lemma reuse_framed n drop p w r p' w' :
  reuse n drop p w = (r, p', w') -> framed p p'.
Proof.
  intros H.
  pose proof (reuse_inv (framed p) n drop p w r p' w') as Hinv.
  specialize (Hinv (fun q io rest _ Hq =>
    framed_trans _ _ _ Hq (evict_front_framed q rest)) (framed_refl p) H).
  destruct r as [x|]; [|exact Hinv].
  destruct Hinv as (q & io & rest & Hq & _ & -> & _).
  eapply framed_trans; [exact Hq|]. repeat split.
Qed.

(** ** Counting: the steps of every operation on [active] and [idle] *)

Lemma counted_weaken k n m p : counted k n p -> n <= m -> counted k m p.
Proof. unfold counted. lia. Qed.

Lemma Len_RemoveBack_cons (io : idleObj Obj) l :
  Len (RemoveBack (io :: l)) = Len l.
Proof.
  pose proof (Len_RemoveBack (io :: l) (last (io :: l) io) eq_refl) as H.
  rewrite Len_cons in H. lia.
Qed.

Lemma counted_release k n p :
  0 <= k -> n <= max_int -> counted (k + 1) n p -> counted k n (release p).
Proof.
  unfold counted. intros Hk Hn H.
  rewrite release_idle, release_active.
  pose proof (Len_nonneg (idle p)).
  rewrite wrap_small by (unfold in_range, min_int, max_int in *; lia). lia.
Qed.

Lemma counted_evict_back k n q io :
  0 <= k -> n <= max_int -> Back (idle q) = Some io ->
  counted k n q -> counted k n (release (set_idle q (RemoveBack (idle q)))).
Proof.
  intros Hk Hn Hback H. apply counted_release; trivial.
  unfold counted in *. cbn [idle active set_idle].
  rewrite (Len_RemoveBack _ _ Hback) in H. lia.
Qed.

Lemma counted_evict_front k n q io rest :
  0 <= k -> n <= max_int -> idle q = io :: rest ->
  counted k n q -> counted k n (release (set_idle q rest)).
Proof.
  intros Hk Hn Hidle H. apply counted_release; trivial.
  unfold counted in *. cbn [idle active set_idle].
  rewrite Hidle, Len_cons in H. lia.
Qed.

Lemma counted_sweep_phase k n p w :
  0 <= k -> n <= max_int -> counted k n p ->
  counted k n (fst (sweep_phase nowFunc p w)).
Proof.
  intros Hk Hn. apply sweep_phase_inv.
  intros q io. now apply counted_evict_back.
Qed.

Lemma gain_borrowed r (held : list (iface Obj)) :
  Len (borrowed r held) = Len held + gain r.
Proof.
  destruct r as [x [e|]| |]; cbn [borrowed gain]; rewrite ?Len_cons; lia.
Qed.

Lemma counted_acquire k n p w r p' w' :
  0 <= k -> n < max_int -> counted k n p ->
  acquire p w = (r, p', w') -> counted (k + gain r) (n + 1) p'.
Proof.
  intros Hk Hn H. unfold acquire.
  pose proof (Len_nonneg (idle p)) as Hlen.
  rewrite (wrap_small (active p + 1))
    by (unfold counted, in_range, min_int, max_int in *; lia).
  destruct (closed p).
  { intros [= <- <- <-]. cbn [gain]. unfold counted in *. lia. }
  destruct ((MaxActive p =? 0) || (active p <? MaxActive p)).
  - destruct (New p) as [f|].
    + destruct (f w) as [[x [e|]] w1]; intros [= <- <- <-]; cbn [gain].
      * rewrite Z.add_0_r. apply counted_release; [lia|lia|].
        unfold counted in *. cbn [idle active set_active]. lia.
      * unfold counted in *. cbn [idle active set_active]. lia.
    + intros [= <- <- <-]. cbn [gain].
      unfold counted in *. cbn [idle active set_active]. lia.
  - destruct (negb (Wait p)); intros [= <- <- <-]; cbn [gain];
      unfold counted in *; rewrite ?park_idle, ?park_active; lia.
Qed.

Lemma counted_get_loop k n p w r p' w' :
  0 <= k -> n < max_int -> counted k n p ->
  get_loop p w = (r, p', w') -> counted (k + gain r) (n + 1) p'.
Proof.
  intros Hk Hn H. unfold get_loop, reuse_phase.
  destruct (reuse _ _ p w) as [[c p1] w1] eqn:Hreuse.
  pose proof (reuse_inv (counted k n) _ _ _ _ _ _ _
    (fun q io rest Hq => counted_evict_front k n q io rest Hk (Z.lt_le_incl _ _ Hn) Hq)
    H Hreuse) as Hinv.
  destruct c as [x|].
  - intros [= <- <- <-]. cbn [gain].
    destruct Hinv as (q & io & rest & Hq & Hidle & -> & _).
    unfold counted in *. cbn [idle active set_idle].
    rewrite Hidle, Len_cons in Hq. lia.
  - now apply counted_acquire.
Qed.

Lemma counted_Get k n p w r p' w' :
  0 <= k -> n < max_int -> counted k n p ->
  Get nowFunc p w = (r, p', w') -> counted (k + gain r) (n + 1) p'.
Proof.
  intros Hk Hn H. unfold Get.
  pose proof (counted_sweep_phase k n p w Hk (Z.lt_le_incl _ _ Hn) H) as Hs.
  destruct (sweep_phase nowFunc p w) as [p1 w1]. cbn [fst] in Hs.
  now apply counted_get_loop.
Qed.

Lemma counted_Put k n p x w :
  0 <= k -> n <= max_int -> counted (k + 1) n p ->
  counted k n (fst (Put nowFunc p x w)).
Proof.
  intros Hk Hn H. unfold Put.
  destruct (closed p); [now apply counted_release|].
  destruct (nowFunc w) as [now w1].
  cbn [MaxIdle idle set_idle]. unfold PushFront.
  destruct (MaxIdle p <? Len (mkIdle x now :: idle p)); cbn [fst].
  - apply counted_release; trivial.
    unfold counted in *. cbn [idle active set_idle].
    rewrite Len_RemoveBack_cons. lia.
  - unfold counted in *.
    rewrite signal_if_cond_idle, signal_if_cond_active.
    cbn [idle active set_idle]. rewrite Len_cons. lia.
Qed.

Lemma Close_fields p w :
  let p' := fst (Close p w) in
  framed (set_closed p true) p' /\ idle p' = [] /\
  active p' = wrap (active p - Len (idle p)).
Proof.
  unfold Close. cbn.
  destruct (cond p); cbn; destruct (DropCallback p); cbn; repeat split.
Qed.

Lemma counted_Close k n p w :
  0 <= k -> n <= max_int -> counted k n p -> counted k n (fst (Close p w)).
Proof.
  intros Hk Hn H. destruct (Close_fields p w) as (_ & Hidle & Hactive).
  unfold counted in *. rewrite Hidle, Hactive.
  pose proof (Len_nonneg (idle p)).
  rewrite wrap_small by (unfold in_range, min_int, max_int in *; lia).
  cbn. lia.
Qed.

(** The invariant of a run of [n] calls. *)
Lemma run_counted p0 w0 tr p w held :
  fresh p0 -> run nowFunc (p0, w0, []) tr (p, w, held) ->
  Z.of_nat (length tr) <= max_int ->
  counted (Len held) (Z.of_nat (length tr)) p.
Proof.
  intros (_ & _ & Hactive & Hidle) Hrun.
  remember (p0, w0, @nil (iface Obj)) as s0 eqn:Es0.
  remember (p, w, held) as s eqn:Es.
  revert p w held Es.
  induction Hrun as [|tr s o s' Hrun IH Hstep]; intros p w held Es Hlen.
  - subst. injection Es as <- <- <-.
    unfold counted. rewrite Hactive, Hidle. cbn. lia.
  - rewrite length_app in *. cbn [length] in *.
    rewrite Nat.add_1_r, Nat2Z.inj_succ in *. unfold Z.succ in *.
    destruct s as [[q v] h].
    specialize (IH q v h eq_refl ltac:(lia)).
    pose proof (Len_nonneg h) as Hh.
    subst s'. inversion Hstep; subst.
    + rewrite gain_borrowed. eapply counted_Get; eauto; lia.
    + rewrite gain_borrowed. eapply counted_get_loop; eauto; lia.
    + match goal with H : Put _ _ _ _ = _ |- _ =>
        apply (f_equal fst) in H; cbn [fst] in H; rewrite <- H end.
      apply counted_weaken with (Z.of_nat (length tr)); [|lia].
      apply counted_Put; [apply Len_nonneg|lia|].
      replace (Len (held1 ++ held2) + 1) with (Len (held1 ++ x :: held2)); trivial.
      unfold Len. rewrite !length_app. cbn [length]. lia.
    + match goal with H : Close _ _ = _ |- _ =>
        apply (f_equal fst) in H; cbn [fst] in H; rewrite <- H end.
      apply counted_weaken with (Z.of_nat (length tr)); [|lia].
      apply counted_Close; trivial. lia.
    + apply counted_weaken with (Z.of_nat (length tr)); [trivial|lia].
Qed.

(** C1.  Along every sequence of Get, Put, Close and ActiveCount calls on a
    fresh pool (woken waiters included) in which a Put gives back an object
    that a Get returned with a nil error and that was not given back
    before, the active count is at least the length of the idle deque, and
    at least zero; even the objects that callers hold are counted in it.  The
    counter is a 64-bit integer: the sequence has fewer than 2^63 calls. *)
Theorem active_covers_idle p0 w0 tr p w held :
  fresh p0 ->
  run nowFunc (p0, w0, []) tr (p, w, held) ->
  Z.of_nat (length tr) < 2 ^ 63 ->
  0 <= ActiveCount p /\
  Len (idle p) <= ActiveCount p /\
  Len (idle p) + Len held <= ActiveCount p.
Proof.
  intros Hfresh Hrun Hlen.
  assert (Hc : counted (Len held) (Z.of_nat (length tr)) p).
  { eapply run_counted; eauto. unfold max_int. lia. }
  unfold counted, ActiveCount in *.
  pose proof (Len_nonneg (idle p)). pose proof (Len_nonneg held). lia.
Qed.

(** ** The idle deque stays within [MaxIdle] *)

Lemma acquire_frame p w r p' w' :
  acquire p w = (r, p', w') -> framed p p' /\ idle p' = idle p.
Proof.
  unfold acquire. destruct (closed p) eqn:Hc.
  { intros [= <- <- <-]. split; [apply framed_refl|reflexivity]. }
  destruct ((MaxActive p =? 0) || (active p <? MaxActive p)).
  - destruct (New p) as [f|] eqn:HN.
    + destruct (f w) as [[x [e|]] w1]; intros [= <- <- <-].
      * split; [|now rewrite release_idle].
        eapply framed_trans; [|apply release_framed]. repeat split.
      * repeat split.
    + intros [= <- <- <-]. repeat split.
  - destruct (negb (Wait p)); intros [= <- <- <-].
    + split; [apply framed_refl|reflexivity].
    + split; [apply park_framed|apply park_idle].
Qed.

Lemma trimmed_release_set q rest :
  Len rest <= Z.max 0 (MaxIdle q) -> trimmed (release (set_idle q rest)).
Proof.
  unfold trimmed. intros Hle.
  destruct (evict_front_framed q rest) as (_ & _ & _ & -> & _).
  rewrite release_idle. cbn [idle set_idle]. lia.
Qed.

Lemma trimmed_evict q rest :
  Len rest <= Len (idle q) -> trimmed q -> trimmed (release (set_idle q rest)).
Proof.
  intros Hle H. apply trimmed_release_set. unfold trimmed in H. lia.
Qed.

Lemma trimmed_get_loop p w :
  trimmed p -> trimmed (snd (fst (get_loop p w))).
Proof.
  intros H. unfold get_loop, reuse_phase.
  destruct (reuse _ _ p w) as [[c p1] w1] eqn:Hreuse.
  assert (Hstep : forall q io rest, idle q = io :: rest -> trimmed q ->
                    trimmed (release (set_idle q rest))).
  { intros q io rest Hq. apply trimmed_evict. rewrite Hq, Len_cons. lia. }
  pose proof (reuse_inv trimmed _ _ _ _ _ _ _ Hstep H Hreuse) as Hinv.
  destruct c as [x|]; cbn [fst snd].
  - destruct Hinv as (q & io & rest & Hq & Hidle & -> & _).
    unfold trimmed in *. cbn [idle MaxIdle set_idle].
    rewrite Hidle, Len_cons in Hq. lia.
  - destruct (acquire p1 w1) as [[r p2] w2] eqn:Ha. cbn [fst snd].
    destruct (acquire_frame _ _ _ _ _ Ha) as ((_ & _ & _ & HM & _) & Hi).
    unfold trimmed in *. now rewrite Hi, HM.
Qed.

Lemma trimmed_Get p w :
  trimmed p -> trimmed (snd (fst (Get nowFunc p w))).
Proof.
  intros H. unfold Get.
  assert (Hs : trimmed (fst (sweep_phase nowFunc p w))).
  { apply sweep_phase_inv; [|exact H].
    intros q io Hback. apply trimmed_evict.
    rewrite (Len_RemoveBack _ _ Hback). lia. }
  destruct (sweep_phase nowFunc p w) as [p1 w1].
  now apply trimmed_get_loop.
Qed.

Lemma trimmed_Put p x w :
  trimmed p -> trimmed (fst (Put nowFunc p x w)).
Proof.
  intros H. unfold Put. destruct (closed p).
  { cbn [fst]. unfold trimmed in *.
    destruct (release_framed p) as (_ & _ & _ & -> & _).
    now rewrite release_idle. }
  destruct (nowFunc w) as [now w1].
  cbn [MaxIdle idle set_idle]. unfold PushFront.
  destruct (Z.ltb_spec (MaxIdle p) (Len (mkIdle x now :: idle p))) as [Hlt|Hge];
    cbn [fst].
  - apply trimmed_release_set. cbn [MaxIdle set_idle].
    rewrite Len_RemoveBack_cons. unfold trimmed in H. lia.
  - unfold trimmed.
    destruct (signal_if_cond_framed (set_idle p (mkIdle x now :: idle p)))
      as (_ & _ & _ & -> & _).
    rewrite signal_if_cond_idle. cbn [idle MaxIdle set_idle]. lia.
Qed.

Lemma Put_framed p x w : framed p (fst (Put nowFunc p x w)).
Proof.
  unfold Put. destruct (closed p); [apply release_framed|].
  destruct (nowFunc w) as [now w1].
  destruct (MaxIdle _ <? _); cbn [fst].
  - eapply framed_trans; [|apply release_framed]. repeat split.
  - eapply framed_trans; [|apply signal_if_cond_framed]. repeat split.
Qed.

Lemma trimmed_Close p w : trimmed (fst (Close p w)).
Proof.
  destruct (Close_fields p w) as (_ & Hidle & _).
  unfold trimmed. rewrite Hidle. cbn. lia.
Qed.

Lemma trimmed_apply_op o (s : Pool Obj World * World) :
  trimmed (fst s) -> trimmed (fst (apply_op nowFunc o s)).
Proof.
  destruct s as [p w]. cbn [fst]. intros H.
  destruct o as [| |x| |]; cbn [apply_op fst snd].
  - pose proof (trimmed_Get p w H) as HG.
    now destruct (Get nowFunc p w) as [[r p'] w'].
  - pose proof (trimmed_get_loop p w H) as HG.
    now destruct (get_loop p w) as [[r p'] w'].
  - now apply trimmed_Put.
  - apply trimmed_Close.
  - exact H.
Qed.

Lemma exec_inv (P : Pool Obj World -> Prop) tr (s : Pool Obj World * World) :
  (forall o s', P (fst s') -> P (fst (apply_op nowFunc o s'))) ->
  P (fst s) -> P (fst (exec nowFunc tr s)).
Proof.
  intros Hstep. unfold exec. revert s.
  induction tr as [|o tr IH]; intros s Hs; cbn [fold_left]; [exact Hs|].
  apply IH. now apply Hstep.
Qed.

(** C2.  On a pool that is not closed and whose MaxIdle is not negative,
    Put pushes the object at the front of the idle deque with the time
    the clock shows.  If the deque is then longer than MaxIdle its back
    entry is removed, the active count is decremented and DropCallback,
    if there is one, receives the object of that entry; otherwise the
    active count is as before and no callback runs.  Either way the deque
    is not longer than MaxIdle when Put returns. *)
Theorem Put_open_pool p0 w0 tr p w x :
  fresh p0 ->
  exec nowFunc tr (p0, w0) = (p, w) ->
  closed p = false ->
  0 <= MaxIdle p ->
  let now := fst (nowFunc w) in
  let w1 := snd (nowFunc w) in
  let pushed := PushFront (mkIdle x now) (idle p) in
  let p' := fst (Put nowFunc p x w) in
  let w' := snd (Put nowFunc p x w) in
  (MaxIdle p < Len pushed ->
     exists kept oldest,
       pushed = kept ++ [oldest] /\
       Back pushed = Some oldest /\
       p' = release (set_idle p kept) /\
       idle p' = kept /\
       ActiveCount p' = wrap (ActiveCount p - 1) /\
       w' = call_drop (DropCallback p) (obj oldest) w1) /\
  (Len pushed <= MaxIdle p ->
     p' = signal_if_cond (set_idle p pushed) /\
     idle p' = pushed /\
     ActiveCount p' = ActiveCount p /\
     w' = w1) /\
  Len (idle p') <= MaxIdle p.
Proof.
  intros Hfresh Hexec Hopen Hmax now w1 pushed p' w'.
  assert (Htrim : trimmed p).
  { pose proof (exec_inv trimmed tr (p0, w0) trimmed_apply_op) as H.
    rewrite Hexec in H. apply H. cbn [fst].
    destruct Hfresh as (_ & _ & _ & Hidle).
    unfold trimmed. rewrite Hidle. cbn. lia. }
  assert (Hafter : Len (idle p') <= MaxIdle p).
  { pose proof (trimmed_Put p x w Htrim) as H. fold p' in H.
    unfold trimmed in H.
    assert (HM : MaxIdle p' = MaxIdle p).
    { subst p'. now destruct (Put_framed p x w) as (_ & _ & _ & -> & _). }
    rewrite HM in H. lia. }
  subst p' w' pushed now w1. unfold Put in *. rewrite Hopen in *.
  destruct (nowFunc w) as [n v]. cbn [fst snd MaxIdle idle set_idle] in *.
  unfold PushFront in *.
  destruct (Z.ltb_spec (MaxIdle p) (Len (mkIdle x n :: idle p))) as [Hlt|Hge];
    cbn [fst snd] in *.
  - split; [intros _|split; [lia|exact Hafter]].
    exists (RemoveBack (mkIdle x n :: idle p)), (last (mkIdle x n :: idle p) (mkIdle x n)).
    assert (Hb : Back (mkIdle x n :: idle p)
                 = Some (last (mkIdle x n :: idle p) (mkIdle x n))) by reflexivity.
    repeat split.
    + now apply Back_Some.
    + now rewrite release_idle.
    + unfold ActiveCount. now rewrite release_active.
  - split; [lia|split; [intros _|exact Hafter]].
    repeat split.
    + now rewrite signal_if_cond_idle.
    + unfold ActiveCount. now rewrite signal_if_cond_active.
Qed.

(** ** A closed pool *)

Lemma get_loop_terminal p w :
  terminal p -> get_loop p w = (Returned None (Some ErrPoolClosed), p, w).
Proof.
  intros [Hc Hi]. unfold get_loop, reuse_phase, acquire.
  rewrite Hi. cbn [length reuse]. now rewrite Hc.
Qed.

Lemma Get_terminal p w :
  terminal p -> Get nowFunc p w = (Returned None (Some ErrPoolClosed), p, w).
Proof.
  intros H. unfold Get, sweep_phase.
  replace (length (idle p)) with O by (destruct H as [_ ->]; reflexivity).
  cbn [sweep]. destruct (0 <? IdleTimeout p); now apply get_loop_terminal.
Qed.

Lemma Put_terminal p x w :
  terminal p ->
  Put nowFunc p x w = (release p, call_drop (DropCallback p) x w).
Proof. intros [Hc _]. unfold Put. now rewrite Hc. Qed.

Lemma terminal_release p : terminal p -> terminal (release p).
Proof.
  intros [Hc Hi]. split.
  - destruct (release_framed p) as (_ & _ & _ & _ & _ & _ & _ & ->). exact Hc.
  - now rewrite release_idle.
Qed.

Lemma terminal_Close p w : terminal (fst (Close p w)).
Proof.
  destruct (Close_fields p w) as ((_ & _ & _ & _ & _ & _ & _ & Hc) & Hi & _).
  split; [exact Hc|exact Hi].
Qed.

Lemma terminal_apply_op o (s : Pool Obj World * World) :
  terminal (fst s) -> terminal (fst (apply_op nowFunc o s)).
Proof.
  destruct s as [p w]. cbn [fst]. intros H.
  destruct o as [| |x| |]; cbn [apply_op fst snd].
  - now rewrite Get_terminal.
  - now rewrite get_loop_terminal.
  - rewrite Put_terminal by exact H. now apply terminal_release.
  - apply terminal_Close.
  - exact H.
Qed.

(** C4.  After Close the pool is terminal.  Whatever calls follow, the pool
    stays closed and its idle deque stays empty; a Get then returns a nil
    object and ErrPoolClosed and leaves the pool as it is (so does a waiter
    that wakes up); a Put of an object decrements the active count and
    hands the object to DropCallback, if there is one, and adds nothing to
    the idle deque. *)
Theorem closed_pool_is_terminal p w tr :
  let q := fst (exec nowFunc tr (Close p w)) in
  let v := snd (exec nowFunc tr (Close p w)) in
  closed q = true /\
  idle q = [] /\
  Get nowFunc q v = (Returned None (Some ErrPoolClosed), q, v) /\
  get_loop q v = (Returned None (Some ErrPoolClosed), q, v) /\
  forall x,
    Put nowFunc q x v = (release q, call_drop (DropCallback q) x v) /\
    ActiveCount (release q) = wrap (ActiveCount q - 1) /\
    idle (release q) = [] /\
    closed (release q) = true.
Proof.
  intros q v.
  assert (Hq : terminal q).
  { subst q. apply exec_inv; [apply terminal_apply_op|apply terminal_Close]. }
  destruct (terminal_release q Hq) as [Hc' Hi'].
  destruct Hq as [Hc Hi].
  repeat split; trivial.
  - now apply Get_terminal.
  - now apply get_loop_terminal.
  - now apply Put_terminal.
  - unfold ActiveCount. apply release_active.
Qed.

(** ** The timeout sweep *)

Lemma set_idle_release q l : set_idle (release q) l = release (set_idle q l).
Proof. unfold release, signal_if_cond. cbn. now destruct (cond q). Qed.

Lemma set_idle_same q : set_idle q (idle q) = q.
Proof. now destruct q. Qed.

Lemma iter_release_idle n q : idle (Nat.iter n release q) = idle q.
Proof.
  induction n as [|n IH]; [reflexivity|].
  rewrite Nat.iter_succ. now rewrite release_idle.
Qed.

Lemma iter_release_shift n q :
  Nat.iter n release (release q) = Nat.iter (S n) release q.
Proof. symmetry. apply Nat.iter_succ_r. Qed.

Section StableClock.
(** While the sweep runs the clock shows [now]: the worlds the sweep
    goes through satisfy [I], where reading the clock gives [now] and
    leaves the world as it is. *)
Variable I : World -> Prop.
Variable now : Z.
Variable drop : option (dropper Obj World).
Hypothesis clock_reads : forall v, I v -> nowFunc v = (now, v).
Hypothesis drop_keeps : forall x v, I v -> I (call_drop drop x v).

Lemma sweep_stable timeout gone : forall keep n p w,
  I w ->
  idle p = keep ++ gone ->
  (length (idle p) <= n)%nat ->
  Forall (fun io => timeout <= now - t io) gone ->
  (forall io, Back keep = Some io -> now - t io < timeout) ->
  sweep nowFunc n timeout drop p w =
    (Nat.iter (length gone) release (set_idle p keep),
     fold_right (fun io v => call_drop drop (obj io) v) w gone).
Proof.
  induction gone as [|io gone' IH] using rev_ind;
    intros keep n p w Hw Hidle Hn Hgone Hkeep.
  - rewrite app_nil_r in Hidle. subst keep.
    cbn [length fold_right]. change (Nat.iter 0 release (set_idle p (idle p))) with (set_idle p (idle p)). rewrite set_idle_same.
    destruct n as [|n]; cbn [sweep]; [reflexivity|].
    destruct (Back (idle p)) as [io|] eqn:Hback; [|reflexivity].
    rewrite (clock_reads w Hw).
    specialize (Hkeep io eq_refl).
    destruct (Z.ltb_spec now (t io + timeout)); [reflexivity|lia].
  - rewrite app_assoc in Hidle.
    destruct n as [|n].
    { rewrite Hidle, length_app in Hn. cbn in Hn. lia. }
    cbn [sweep]. rewrite Hidle, Back_snoc, RemoveBack_snoc.
    rewrite (clock_reads w Hw).
    apply Forall_app in Hgone. destruct Hgone as [Hgone' Hio].
    inversion Hio as [|? ? Hexp _]; subst.
    destruct (Z.ltb_spec now (t io + timeout)); [lia|].
    rewrite (IH keep n).
    + rewrite fold_right_app. cbn [fold_right]. f_equal.
      rewrite set_idle_release. cbn [set_idle].
      rewrite iter_release_shift, length_app, Nat.add_1_r.
      reflexivity.
    + now apply drop_keeps.
    + now rewrite release_idle.
    + rewrite release_idle. cbn [idle set_idle].
      rewrite Hidle, length_app in Hn. cbn in Hn. lia.
    + exact Hgone'.
    + exact Hkeep.
Qed.
End StableClock.

(** The sweep under any clock: the entries of [gone] are expired at the
    readings made for them, the back entry of [keep] is not. *)
Lemma sweep_moving timeout drop gone : forall keep n p w,
  idle p = keep ++ gone ->
  (length (idle p) <= n)%nat ->
  expired_in_turn nowFunc timeout drop (rev gone) w ->
  (forall io, Back keep = Some io ->
     fst (nowFunc (swept_world nowFunc drop (rev gone) w)) - t io < timeout) ->
  sweep nowFunc n timeout drop p w =
    (Nat.iter (length gone) release (set_idle p keep),
     match Back keep with
     | Some _ => snd (nowFunc (swept_world nowFunc drop (rev gone) w))
     | None => swept_world nowFunc drop (rev gone) w
     end).
Proof.
  induction gone as [|io gone' IH] using rev_ind;
    intros keep n p w Hidle Hn Hgone Hkeep.
  - rewrite app_nil_r in Hidle. subst keep.
    cbn [rev swept_world length] in *.
    change (Nat.iter 0 release (set_idle p (idle p))) with (set_idle p (idle p)).
    rewrite set_idle_same.
    destruct n as [|n]; cbn [sweep].
    + destruct (idle p); [reflexivity|cbn in Hn; lia].
    + destruct (Back (idle p)) as [io|] eqn:Hback; [|reflexivity].
      specialize (Hkeep io eq_refl).
      destruct (nowFunc w) as [now w1]. cbn [fst snd] in *.
      destruct (Z.ltb_spec now (t io + timeout)); [reflexivity|lia].
  - rewrite rev_unit in Hgone, Hkeep |- *.
    cbn [expired_in_turn swept_world] in Hgone, Hkeep |- *.
    destruct Hgone as [Hexp Hgone'].
    rewrite app_assoc in Hidle.
    destruct n as [|n].
    { rewrite Hidle, length_app in Hn. cbn in Hn. lia. }
    cbn [sweep]. rewrite Hidle, Back_snoc, RemoveBack_snoc.
    destruct (nowFunc w) as [now w1]. cbn [fst snd] in *.
    destruct (Z.ltb_spec now (t io + timeout)); [lia|].
    rewrite (IH keep n); trivial.
    + f_equal. rewrite set_idle_release. cbn [set_idle].
      rewrite iter_release_shift, length_app, Nat.add_1_r. reflexivity.
    + now rewrite release_idle.
    + rewrite release_idle. cbn [idle set_idle].
      rewrite Hidle, length_app in Hn. cbn in Hn. lia.
Qed.

(** Every deque splits into the entries that a sweep removes and those
    that it keeps. *)
Lemma sweep_decompose timeout drop (l : list (idleObj Obj)) : forall w,
  exists keep gone,
    l = keep ++ gone /\
    expired_in_turn nowFunc timeout drop (rev gone) w /\
    (forall io, Back keep = Some io ->
       fst (nowFunc (swept_world nowFunc drop (rev gone) w)) - t io < timeout).
Proof.
  induction l as [|io l IH] using rev_ind; intros w.
  - exists [], []. repeat split. intros io H. discriminate H.
  - destruct (Z_lt_dec (fst (nowFunc w) - t io) timeout) as [Hyoung|Hold].
    + exists (l ++ [io]), []. rewrite app_nil_r. repeat split.
      intros io' H. rewrite Back_snoc in H. injection H as <-. exact Hyoung.
    + destruct (IH (call_drop drop (obj io) (snd (nowFunc w))))
        as (keep & gone & -> & Hgone & Hkeep).
      exists keep, (gone ++ [io]). rewrite rev_unit.
      cbn [expired_in_turn swept_world].
      split; [now rewrite app_assoc|]. split; [split; [lia|exact Hgone]|exact Hkeep].
Qed.

(** C5.  With IdleTimeout positive, Get starts from the back of the idle
    deque and reads the clock for one entry after the other.  Every entry
    that has the age IdleTimeout or more at its reading (the bound included)
    is removed, oldest first, with one decrement of the active count and one
    call of DropCallback each; the first entry from the back that is younger
    than IdleTimeout at its reading stops the sweep, and the entries before
    it stay as they are.  Get then goes on as [get_loop] on that pool.  Every
    sweep is of this form, whatever the clock does.  With IdleTimeout zero
    or negative nothing is swept and the clock is not read. *)
Theorem Get_timeout_sweep p w :
  (IdleTimeout p <= 0 ->
     sweep_phase nowFunc p w = (p, w) /\
     Get nowFunc p w = get_loop p w) /\
  (0 < IdleTimeout p ->
   (forall keep gone,
      idle p = keep ++ gone ->
      expired_in_turn nowFunc (IdleTimeout p) (DropCallback p) (rev gone) w ->
      let wk := swept_world nowFunc (DropCallback p) (rev gone) w in
      (forall io, Back keep = Some io ->
         fst (nowFunc wk) - t io < IdleTimeout p) ->
      let p1 := Nat.iter (length gone) release (set_idle p keep) in
      let w1 := match Back keep with
                | Some _ => snd (nowFunc wk)
                | None => wk
                end in
      sweep_phase nowFunc p w = (p1, w1) /\
      idle p1 = keep /\
      Get nowFunc p w = get_loop p1 w1) /\
   (exists keep gone,
      idle p = keep ++ gone /\
      expired_in_turn nowFunc (IdleTimeout p) (DropCallback p) (rev gone) w /\
      (forall io, Back keep = Some io ->
         fst (nowFunc (swept_world nowFunc (DropCallback p) (rev gone) w))
           - t io < IdleTimeout p))).
Proof.
  split.
  - intros Hoff. unfold Get, sweep_phase.
    destruct (Z.ltb_spec 0 (IdleTimeout p)); [lia|]. now split.
  - intros Hon. split; [|apply sweep_decompose].
    intros keep gone Hidle Hgone wk Hkeep p1 w1.
    assert (Hs : sweep_phase nowFunc p w = (p1, w1)).
    { unfold sweep_phase. destruct (Z.ltb_spec 0 (IdleTimeout p)); [|lia].
      now apply sweep_moving. }
    repeat split.
    + exact Hs.
    + subst p1. now rewrite iter_release_idle.
    + unfold Get. now rewrite Hs.
Qed.

(** ** From the reuse loop to the result of [Get] *)

Lemma Get_phases p w p1 w1 c p2 w2 :
  sweep_phase nowFunc p w = (p1, w1) ->
  reuse_phase p1 w1 = (c, p2, w2) ->
  Get nowFunc p w =
    match c with
    | Some x => (Returned x None, p2, w2)
    | None => acquire p2 w2
    end.
Proof.
  intros Hs Hr. unfold Get, get_loop. rewrite Hs, Hr. now destruct c.
Qed.

Lemma phases_framed p w p1 w1 c p2 w2 :
  sweep_phase nowFunc p w = (p1, w1) ->
  reuse_phase p1 w1 = (c, p2, w2) ->
  framed p p2.
Proof.
  intros Hs Hr.
  pose proof (sweep_phase_framed p w) as H1. rewrite Hs in H1.
  eapply framed_trans; [exact H1|]. eapply reuse_framed, Hr.
Qed.

Lemma reuse_phase_None_empty p w p' w' :
  reuse_phase p w = (None, p', w') -> idle p' = [].
Proof. apply reuse_None_empty. lia. Qed.

Lemma phases_inv (P : Pool Obj World -> Prop) p w p1 w1 p2 w2 :
  (forall q rest, Len rest < Len (idle q) -> P q ->
                  P (release (set_idle q rest))) ->
  P p ->
  sweep_phase nowFunc p w = (p1, w1) ->
  reuse_phase p1 w1 = (None, p2, w2) ->
  P p2.
Proof.
  intros Hstep Hp Hs Hr.
  assert (H1 : P p1).
  { pose proof (sweep_phase_inv P p w) as H. rewrite Hs in H. apply H; trivial.
    intros q io Hback. apply Hstep. rewrite (Len_RemoveBack _ _ Hback). lia. }
  apply (reuse_inv P _ _ _ _ _ _ _) with (3 := Hr); trivial.
  intros q io rest Hq. apply Hstep. rewrite Hq, Len_cons. lia.
Qed.

Lemma capacity_spec p :
  (MaxActive p =? 0) || (active p <? MaxActive p) = true <->
  MaxActive p = 0 \/ active p < MaxActive p.
Proof. rewrite orb_true_iff, Z.eqb_eq, Z.ltb_lt. reflexivity. Qed.

(** C3, amended.  When the factory never returns ErrPoolExhausted itself,
    Get returns a nil object with ErrPoolExhausted exactly when the sweep
    and the reuse loop leave an empty idle deque on a pool that is not
    closed, Wait is false, MaxActive is not zero and the active count has
    reached MaxActive; with MaxActive zero Get then never returns
    ErrPoolExhausted. *)
Theorem Get_exhausted_iff p w :
  (forall f v, New p = Some f -> snd (fst (f v)) <> Some ErrPoolExhausted) ->
  (fst (fst (Get nowFunc p w)) = Returned None (Some ErrPoolExhausted) <->
   exhausted_after_reuse nowFunc p w) /\
  (MaxActive p = 0 ->
   forall x, fst (fst (Get nowFunc p w)) <> Returned x (Some ErrPoolExhausted)).
Proof.
  intros Hnew. unfold exhausted_after_reuse.
  destruct (sweep_phase nowFunc p w) as [p1 w1] eqn:Hs.
  destruct (reuse_phase p1 w1) as [[c p2] w2] eqn:Hr.
  rewrite (Get_phases _ _ _ _ _ _ _ Hs Hr).
  destruct (phases_framed _ _ _ _ _ _ _ Hs Hr)
    as (HN & _ & _ & _ & HM & _ & _ & _).
  destruct c as [y|]; cbn [fst].
  { split; [split; [discriminate|intros [? _]; discriminate]|].
    intros _ x. discriminate. }
  pose proof (reuse_phase_None_empty _ _ _ _ Hr) as Hempty.
  unfold acquire. destruct (closed p2) eqn:Hc; cbn [fst].
  { split; [split; [discriminate|intros (_ & _ & ? & _); discriminate]|].
    intros _ x. discriminate. }
  destruct ((MaxActive p2 =? 0) || (active p2 <? MaxActive p2)) eqn:Hcap.
  - apply capacity_spec in Hcap.
    assert (Hno : ~ (None = None :> option (iface Obj) /\ idle p2 = [] /\
                     false = false /\ Wait p2 = false /\
                     MaxActive p2 <> 0 /\ MaxActive p2 <= active p2))
      by (intros (_ & _ & _ & _ & H0 & Hle); lia).
    rewrite HN. destruct (New p) as [f|] eqn:Hf.
    + specialize (Hnew f w2 eq_refl).
      destruct (f w2) as [[x0 [e|]] w3]; cbn [fst snd] in *.
      * assert (He : forall x, Returned None (Some e)
                               <> Returned x (Some ErrPoolExhausted) :> outcome Obj)
          by (intros x [= _ ->]; now apply Hnew).
        split; [split; [intros H; now apply He in H|tauto]|].
        intros _ x. apply He.
      * split; [split; [discriminate|tauto]|]. intros _ x. discriminate.
    + split; [split; [discriminate|tauto]|]. intros _ x. discriminate.
  - assert (Hnocap : MaxActive p2 <> 0 /\ MaxActive p2 <= active p2).
    { destruct (Z.eq_dec (MaxActive p2) 0) as [E|E].
      - rewrite E in Hcap. discriminate.
      - apply orb_false_iff in Hcap. destruct Hcap as [_ Hlt].
        apply Z.ltb_ge in Hlt. now split. }
    destruct (Wait p2) eqn:Hwait; cbn [negb fst].
    + split; [split; [discriminate|intros (_ & _ & _ & ? & _); discriminate]|].
      intros _ x. discriminate.
    + split; [split; [intros _; now repeat split|reflexivity]|].
      intros H0. rewrite <- HM in H0. now destruct Hnocap.
Qed.

(** ** Construction *)

Lemma phases_in_range p w p1 w1 p2 w2 :
  in_range (active p) ->
  sweep_phase nowFunc p w = (p1, w1) ->
  reuse_phase p1 w1 = (None, p2, w2) ->
  in_range (active p2).
Proof.
  apply (phases_inv (fun q => in_range (active q))).
  intros q rest _ _. rewrite release_active. apply wrap_in_range.
Qed.

(** C6.  When Get comes to construct and the factory returns an error, Get
    returns that error with a nil object, and the active count, which was
    incremented before the call of the factory, is again what it was
    before the attempt. *)
Theorem Get_factory_error p w p1 w1 p2 w2 f x e w3 :
  in_range (active p) ->
  sweep_phase nowFunc p w = (p1, w1) ->
  reuse_phase p1 w1 = (None, p2, w2) ->
  closed p = false ->
  MaxActive p = 0 \/ active p2 < MaxActive p ->
  New p = Some f ->
  f w2 = ((x, Some e), w3) ->
  exists p',
    Get nowFunc p w = (Returned None (Some e), p', w3) /\
    p' = release (set_active p2 (wrap (active p2 + 1))) /\
    ActiveCount p' = ActiveCount p2 /\
    idle p' = idle p2.
Proof.
  intros Hrange Hs Hr Hopen Hcap Hnew Hf.
  destruct (phases_framed _ _ _ _ _ _ _ Hs Hr)
    as (HN & _ & _ & _ & HM & _ & _ & HC).
  pose proof (phases_in_range _ _ _ _ _ _ Hrange Hs Hr) as Hrange2.
  exists (release (set_active p2 (wrap (active p2 + 1)))).
  rewrite (Get_phases _ _ _ _ _ _ _ Hs Hr). unfold acquire.
  rewrite HC, Hopen, HN, Hnew, Hf.
  rewrite <- HM in Hcap. apply capacity_spec in Hcap. rewrite Hcap.
  repeat split.
  - unfold ActiveCount. rewrite release_active. cbn [active set_active].
    now apply wrap_succ_pred.
  - now rewrite release_idle.
Qed.

(** C10.  Get calls the New field without asking whether it is nil.  On a
    pool whose New is nil, a Get that finds no idle object to return, on a
    pool that is not closed and has capacity, panics, with the active
    count already incremented; a Get on a pool whose New is not nil never
    panics. *)
Theorem Get_nil_factory p w :
  (forall p1 w1 p2 w2,
     New p = None ->
     sweep_phase nowFunc p w = (p1, w1) ->
     reuse_phase p1 w1 = (None, p2, w2) ->
     closed p = false ->
     MaxActive p = 0 \/ active p2 < MaxActive p ->
     idle p2 = [] /\
     Get nowFunc p w = (Panicked, set_active p2 (wrap (active p2 + 1)), w2)) /\
  (New p <> None -> fst (fst (Get nowFunc p w)) <> Panicked).
Proof.
  split.
  - intros p1 w1 p2 w2 Hnil Hs Hr Hopen Hcap.
    destruct (phases_framed _ _ _ _ _ _ _ Hs Hr)
      as (HN & _ & _ & _ & HM & _ & _ & HC).
    split; [now apply reuse_phase_None_empty in Hr|].
    rewrite (Get_phases _ _ _ _ _ _ _ Hs Hr). unfold acquire.
    rewrite HC, Hopen, HN, Hnil.
    rewrite <- HM in Hcap. apply capacity_spec in Hcap. now rewrite Hcap.
  - intros Hnew.
    destruct (sweep_phase nowFunc p w) as [p1 w1] eqn:Hs.
    destruct (reuse_phase p1 w1) as [[c p2] w2] eqn:Hr.
    destruct (phases_framed _ _ _ _ _ _ _ Hs Hr) as (HN & _).
    rewrite (Get_phases _ _ _ _ _ _ _ Hs Hr).
    destruct c as [y|]; [discriminate|].
    unfold acquire. rewrite HN.
    destruct (closed p2); [discriminate|].
    destruct (_ || _).
    + destruct (New p) as [f|]; [|contradiction].
      destruct (f w2) as [[x0 [e|]] w3]; discriminate.
    + destruct (negb (Wait p2)); discriminate.
Qed.

(** ** Reuse *)

Lemma Put_fits p x w :
  closed p = false ->
  Len (idle p) + 1 <= MaxIdle p ->
  Put nowFunc p x w =
    (signal_if_cond (set_idle p (mkIdle x (fst (nowFunc w)) :: idle p)),
     snd (nowFunc w)).
Proof.
  intros Hopen Hfit. unfold Put. rewrite Hopen.
  destruct (nowFunc w) as [now w1]. cbn [fst snd MaxIdle idle set_idle].
  unfold PushFront.
  destruct (Z.ltb_spec (MaxIdle p) (Len (mkIdle x now :: idle p))) as [H|H];
    [|reflexivity].
  rewrite Len_cons in H. lia.
Qed.

(** C7.  Idle objects are reused last in, first out.  On a pool that is
    not closed, has no validator and no timeout eviction, after Put(a) and
    then Put(b), both within MaxIdle, the next Get returns b and leaves
    the entry of a at the front of the idle deque. *)
Theorem Put_Put_Get_lifo p w a b :
  closed p = false ->
  TestOnBorrow p = None ->
  IdleTimeout p <= 0 ->
  Len (idle p) + 2 <= MaxIdle p ->
  let s1 := Put nowFunc p a w in
  let s2 := Put nowFunc (fst s1) b (snd s1) in
  idle (fst s1) = mkIdle a (fst (nowFunc w)) :: idle p /\
  idle (fst s2) = mkIdle b (fst (nowFunc (snd s1))) :: idle (fst s1) /\
  Get nowFunc (fst s2) (snd s2) =
    (Returned b None, set_idle (fst s2) (idle (fst s1)), snd s2).
Proof.
  intros Hopen Htest Hoff Hfit s1 s2.
  assert (E1 : s1 = (signal_if_cond (set_idle p (mkIdle a (fst (nowFunc w)) :: idle p)),
                     snd (nowFunc w))).
  { subst s1. apply Put_fits; [exact Hopen|lia]. }
  assert (Hi1 : idle (fst s1) = mkIdle a (fst (nowFunc w)) :: idle p).
  { rewrite E1. cbn [fst]. now rewrite signal_if_cond_idle. }
  destruct (Put_framed p a w) as (_ & HT1 & _ & HM1 & _ & HO1 & _ & HC1).
  fold s1 in HT1, HM1, HO1, HC1.
  assert (E2 : s2 = (signal_if_cond
                       (set_idle (fst s1) (mkIdle b (fst (nowFunc (snd s1))) :: idle (fst s1))),
                     snd (nowFunc (snd s1)))).
  { subst s2. apply Put_fits; [congruence|].
    rewrite Hi1, Len_cons, HM1. lia. }
  assert (Hi2 : idle (fst s2) = mkIdle b (fst (nowFunc (snd s1))) :: idle (fst s1)).
  { rewrite E2. cbn [fst]. now rewrite signal_if_cond_idle. }
  destruct (Put_framed (fst s1) b (snd s1)) as (_ & HT2 & _ & _ & _ & HO2 & _ & _).
  fold s2 in HT2, HO2.
  repeat split; trivial.
  unfold Get, sweep_phase.
  destruct (Z.ltb_spec 0 (IdleTimeout (fst s2))) as [H|_]; [lia|].
  unfold get_loop, reuse_phase. rewrite Hi2. cbn [length reuse].
  rewrite Hi2. cbn [TestOnBorrow set_idle obj].
  rewrite HT2, HT1, Htest. reflexivity.
Qed.



(** ** Close *)

Lemma fold_left_skip (l : list (idleObj Obj)) w :
  fold_left (fun v _ => v) l w = w.
Proof. induction l as [|io l IH]; [reflexivity|exact IH]. Qed.

(** C9, amended.  Close takes the whole idle deque, empties it, sets
    closed, decrements the active count by the number of entries taken and
    then calls DropCallback, if there is one, once for every entry taken,
    from the front of the deque to its back: newest first. *)
Theorem Close_drains_front_to_back p w :
  let snapshot := idle p in
  let p' := fst (Close p w) in
  idle p' = [] /\
  closed p' = true /\
  ActiveCount p' = wrap (ActiveCount p - Len snapshot) /\
  snd (Close p w) =
    fold_left (fun v io => call_drop (DropCallback p) (obj io) v) snapshot w.
Proof.
  intros snapshot p'.
  destruct (Close_fields p w) as ((_ & _ & _ & _ & _ & _ & _ & Hc) & Hi & Ha).
  repeat split; trivial.
  subst snapshot. unfold Close, call_drop. cbn.
  destruct (cond p) as [n|]; cbn; destruct (DropCallback p) as [d|];
    cbn [snd]; trivial; symmetry; apply fold_left_skip.
Qed.

(** A run can be extended at its front. *)
Lemma run_cons (s0 s1 s : state Obj World) o tr :
  step nowFunc s0 o s1 -> run nowFunc s1 tr s -> run nowFunc s0 (o :: tr) s.
Proof.
  intros Hstep Hrun.
  induction Hrun as [|tr s o' s' Hrun IH Hstep'].
  - apply (run_snoc nowFunc s0 [] s0 o s1); [apply run_nil|exact Hstep].
  - apply (run_snoc nowFunc s0 (o :: tr) s o' s'); [exact IH|exact Hstep'].
Qed.

End PoolFacts.

(** * The theorems at work on the dialer of the test suite *)

Lemma active_covers_idle_witness :
  let tr := [OpGet; OpGet; OpGet; OpPut (Some 0%nat); OpPut (Some 1%nat);
             OpClose; OpPut (Some 2%nat); OpGet; OpActiveCount] in
  let s := exec Demo.nowFunc tr (Demo.pool 2, Demo.start) in
  fresh (Demo.pool 2) /\
  run Demo.nowFunc (Demo.pool 2, Demo.start, []) tr (fst s, snd s, []) /\
  Z.of_nat (length tr) < 2 ^ 63 /\
  0 <= ActiveCount (fst s) /\
  Len (idle (fst s)) <= ActiveCount (fst s) /\
  Len (idle (fst s)) + Len (@nil (iface nat)) <= ActiveCount (fst s).
Proof.
  intros tr s.
  assert (Hfresh : fresh (Demo.pool 2)) by (repeat split).
  assert (Hlen : Z.of_nat (length tr) < 2 ^ 63) by (vm_compute; reflexivity).
  assert (Hrun : run Demo.nowFunc (Demo.pool 2, Demo.start, []) tr (fst s, snd s, [])).
  { subst tr s.
    eapply run_cons; [apply step_get; reflexivity|].
    eapply run_cons; [apply step_get; reflexivity|].
    eapply run_cons; [apply step_get; reflexivity|].
    eapply run_cons;
      [apply (step_put Demo.nowFunc _ _ [Some 2%nat; Some 1%nat] (Some 0%nat) []);
       reflexivity|].
    eapply run_cons;
      [apply (step_put Demo.nowFunc _ _ [Some 2%nat] (Some 1%nat) []);
       reflexivity|].
    eapply run_cons; [apply step_close; reflexivity|].
    eapply run_cons;
      [apply (step_put Demo.nowFunc _ _ [] (Some 2%nat) []); reflexivity|].
    eapply run_cons; [apply step_get; reflexivity|].
    eapply run_cons; [apply step_active|].
    apply run_nil. }
  split; [exact Hfresh|]. split; [exact Hrun|]. split; [exact Hlen|].
  exact (active_covers_idle Demo.nowFunc _ _ _ _ _ _ Hfresh Hrun Hlen).
Defined.

Lemma Put_open_pool_witness :
  let tr := [OpGet; OpGet; OpPut (Some 0%nat)] in
  let s := exec Demo.nowFunc tr (Demo.pool 1, Demo.start) in
  fresh (Demo.pool 1) /\
  exec Demo.nowFunc tr (Demo.pool 1, Demo.start) = (fst s, snd s) /\
  closed (fst s) = false /\
  0 <= MaxIdle (fst s) /\
  Len (idle (fst (Put Demo.nowFunc (fst s) (Some 1%nat) (snd s)))) <= MaxIdle (fst s).
Proof.
  intros tr s.
  assert (Hfresh : fresh (Demo.pool 1)) by (repeat split).
  assert (Hexec : exec Demo.nowFunc tr (Demo.pool 1, Demo.start) = (fst s, snd s))
    by reflexivity.
  assert (Hopen : closed (fst s) = false) by reflexivity.
  assert (Hmax : 0 <= MaxIdle (fst s)) by (vm_compute; discriminate).
  repeat (split; [assumption|]).
  exact (proj2 (proj2 (Put_open_pool Demo.nowFunc (Demo.pool 1) Demo.start tr
                         (fst s) (snd s) (Some 1%nat) Hfresh Hexec Hopen Hmax))).
Defined.

(** A factory that hands on ErrPoolExhausted makes Get return it on a pool
    without a limit. *)
Lemma exhausted_error_from_factory :
  MaxActive Demo.relay_pool = 0 /\
  fst (fst (Get Demo.nowFunc Demo.relay_pool Demo.start))
    = Returned None (Some ErrPoolExhausted) /\
  ~ exhausted_after_reuse Demo.nowFunc Demo.relay_pool Demo.start.
Proof.
  split; [reflexivity|]. split; [reflexivity|].
  intros (_ & _ & _ & _ & Hlimit & _). now apply Hlimit.
Qed.

Lemma Get_exhausted_iff_witness :
  (forall f v, New (fst Demo.both_held) = Some f ->
               snd (fst (f v)) <> Some ErrPoolExhausted) /\
  fst (fst (Get Demo.nowFunc (fst Demo.both_held) (snd Demo.both_held)))
    = Returned None (Some ErrPoolExhausted) /\
  exhausted_after_reuse Demo.nowFunc (fst Demo.both_held) (snd Demo.both_held).
Proof.
  assert (Hnew : forall f v, New (fst Demo.both_held) = Some f ->
                             snd (fst (f v)) <> Some ErrPoolExhausted).
  { intros f v Hf. injection Hf as <-. discriminate. }
  assert (Hget : fst (fst (Get Demo.nowFunc (fst Demo.both_held) (snd Demo.both_held)))
                 = Returned None (Some ErrPoolExhausted)) by reflexivity.
  split; [exact Hnew|]. split; [exact Hget|].
  exact (proj1 (proj1 (Get_exhausted_iff Demo.nowFunc (fst Demo.both_held)
                         (snd Demo.both_held) Hnew)) Hget).
Defined.

Lemma Get_timeout_sweep_witness :
  let p := fst Demo.ticking in
  let w := snd Demo.ticking in
  let keep := [mkIdle (Some 2%nat) 12] in
  let gone := [mkIdle (Some 1%nat) 5; mkIdle (Some 0%nat) 0] in
  let wk := swept_world Demo.tick (DropCallback p) (rev gone) w in
  0 < IdleTimeout p /\
  idle p = keep ++ gone /\
  expired_in_turn Demo.tick (IdleTimeout p) (DropCallback p) (rev gone) w /\
  (forall io, Back keep = Some io -> fst (Demo.tick wk) - t io < IdleTimeout p) /\
  sweep_phase Demo.tick p w
    = (Nat.iter 2 release (set_idle p keep), snd (Demo.tick wk)) /\
  Demo.dropped (snd (Demo.tick wk)) = [Some 0%nat; Some 1%nat] /\
  Demo.clock w = 14 /\ Demo.clock (snd (Demo.tick wk)) = 17.
Proof.
  intros p w keep gone wk.
  assert (Hon : 0 < IdleTimeout p) by reflexivity.
  assert (Hidle : idle p = keep ++ gone) by reflexivity.
  assert (Hgone : expired_in_turn Demo.tick (IdleTimeout p) (DropCallback p)
                                  (rev gone) w).
  { cbn. repeat split; discriminate. }
  assert (Hkeep : forall io, Back keep = Some io ->
                    fst (Demo.tick wk) - t io < IdleTimeout p).
  { intros io Hio. injection Hio as <-. reflexivity. }
  repeat (split; [assumption|]).
  split; [|repeat split].
  exact (proj1 (proj1 (proj2 (Get_timeout_sweep Demo.tick p w) Hon)
                      keep gone Hidle Hgone Hkeep)).
Defined.

Lemma Get_factory_error_witness :
  let p := Demo.broken_pool in
  let w := Demo.start in
  in_range (active p) /\
  sweep_phase Demo.nowFunc p w = (p, w) /\
  reuse_phase p w = (None, p, w) /\
  closed p = false /\
  (MaxActive p = 0 \/ active p < MaxActive p) /\
  New p = Some Demo.dial_broken /\
  Demo.dial_broken w = ((Some 0%nat, Some (ErrOther "dial"%string)), w) /\
  exists p',
    Get Demo.nowFunc p w = (Returned None (Some (ErrOther "dial"%string)), p', w) /\
    p' = release (set_active p (wrap (active p + 1))) /\
    ActiveCount p' = ActiveCount p /\
    idle p' = idle p.
Proof.
  intros p w.
  assert (Hrange : in_range (active p)) by (vm_compute; split; discriminate).
  assert (Hs : sweep_phase Demo.nowFunc p w = (p, w)) by reflexivity.
  assert (Hr : reuse_phase p w = (None, p, w)) by reflexivity.
  assert (Hopen : closed p = false) by reflexivity.
  assert (Hcap : MaxActive p = 0 \/ active p < MaxActive p) by (left; reflexivity).
  assert (Hnew : New p = Some Demo.dial_broken) by reflexivity.
  assert (Hf : Demo.dial_broken w = ((Some 0%nat, Some (ErrOther "dial"%string)), w))
    by reflexivity.
  repeat (split; [assumption|]).
  exact (Get_factory_error Demo.nowFunc p w p w p w Demo.dial_broken
           (Some 0%nat) (ErrOther "dial"%string) w Hrange Hs Hr Hopen Hcap Hnew Hf).
Defined.

Lemma Put_Put_Get_lifo_witness :
  let p := Demo.pool 2 in
  let w := Demo.start in
  let s1 := Put Demo.nowFunc p (Some 7%nat) w in
  let s2 := Put Demo.nowFunc (fst s1) (Some 8%nat) (snd s1) in
  closed p = false /\
  TestOnBorrow p = None /\
  IdleTimeout p <= 0 /\
  Len (idle p) + 2 <= MaxIdle p /\
  Get Demo.nowFunc (fst s2) (snd s2)
    = (Returned (Some 8%nat) None, set_idle (fst s2) (idle (fst s1)), snd s2).
Proof.
  intros p w s1 s2.
  assert (Hopen : closed p = false) by reflexivity.
  assert (Htest : TestOnBorrow p = None) by reflexivity.
  assert (Hoff : IdleTimeout p <= 0) by (vm_compute; discriminate).
  assert (Hfit : Len (idle p) + 2 <= MaxIdle p) by (vm_compute; discriminate).
  repeat (split; [assumption|]).
  exact (proj2 (proj2 (Put_Put_Get_lifo Demo.nowFunc p w (Some 7%nat) (Some 8%nat)
                         Hopen Htest Hoff Hfit))).
Defined.


(** Object 0 went back to the pool before object 1, and Close drops object
    1 before object 0. *)
Lemma Close_drops_newest_first :
  map (fun io => (obj io, t io)) (idle (fst Demo.two_idle))
    = [(Some 1%nat, 5); (Some 0%nat, 0)] /\
  Demo.dropped (snd (Close (fst Demo.two_idle) (snd Demo.two_idle)))
    = [Some 1%nat; Some 0%nat] /\
  snd (Close (fst Demo.two_idle) (snd Demo.two_idle))
    <> fold_left (fun v io => call_drop (DropCallback (fst Demo.two_idle)) (obj io) v)
                 (rev (idle (fst Demo.two_idle))) (snd Demo.two_idle).
Proof.
  split; [reflexivity|]. split; [reflexivity|].
  intros H. apply (f_equal Demo.dropped) in H. discriminate H.
Qed.

Lemma Get_nil_factory_witness :
  let p := NewPool (Obj := nat) (World := Demo.World) None 2 in
  let w := Demo.start in
  New p = None /\
  sweep_phase Demo.nowFunc p w = (p, w) /\
  reuse_phase p w = (None, p, w) /\
  closed p = false /\
  (MaxActive p = 0 \/ active p < MaxActive p) /\
  idle p = [] /\
  Get Demo.nowFunc p w = (Panicked, set_active p (wrap (active p + 1)), w).
Proof.
  intros p w.
  assert (Hnil : New p = None) by reflexivity.
  assert (Hs : sweep_phase Demo.nowFunc p w = (p, w)) by reflexivity.
  assert (Hr : reuse_phase p w = (None, p, w)) by reflexivity.
  assert (Hopen : closed p = false) by reflexivity.
  assert (Hcap : MaxActive p = 0 \/ active p < MaxActive p) by (left; reflexivity).
  repeat (split; [assumption|]).
  exact (proj1 (Get_nil_factory Demo.nowFunc p w) p w p w Hnil Hs Hr Hopen Hcap).
Defined.


(** * The test suite of the repository, run on the model *)

Example TestPoolReuse_model :
  let s := Nat.iter 10 Demo.round2 (Demo.pool 2, Demo.start) in
  Demo.check s = (2%nat, 2, 2) /\
  Demo.check (Close (fst s) (snd s)) = (2%nat, 0, 0).
Proof. split; reflexivity. Qed.

Example TestPoolMaxIdle_model :
  let s := Nat.iter 10 Demo.round3 (Demo.pool 2, Demo.start) in
  Demo.check s = (12%nat, 2, 2) /\
  Demo.check (Close (fst s) (snd s)) = (12%nat, 0, 0).
Proof. split; reflexivity. Qed.

Example TestPoolClose_model :
  let s := exec Demo.nowFunc
             [OpGet; OpGet; OpGet; OpPut (Some 0%nat); OpPut (Some 1%nat); OpClose]
             (Demo.pool 2, Demo.start) in
  let s' := Demo.give (Some 2%nat) s in
  Demo.check s = (3%nat, 1, 1) /\
  Demo.check s' = (3%nat, 0, 0) /\
  fst (Demo.borrow s') = Returned None (Some ErrPoolClosed).
Proof. repeat split; reflexivity. Qed.

Example TestPoolTimeout_model :
  let s := Demo.one_second_idle in
  let s' := Demo.round1 s in
  Demo.check s = (1%nat, 1, 1) /\
  Demo.check s' = (2%nat, 1, 1).
Proof. split; reflexivity. Qed.

Example TestPoolBorrowCheck_model :
  let p := mkPool (Some Demo.dial) (Some Demo.reject) (Some Demo.drop) 2 0 0
                  false None false 0 [] in
  Demo.check (Nat.iter 10 Demo.round1 (p, Demo.start)) = (10%nat, 1, 1).
Proof. reflexivity. Qed.

Example TestPoolMaxActive_model :
  let s := Demo.both_held in
  let s' := Demo.give (Some 1%nat) (snd (Demo.borrow s)) in
  Demo.check s = (2%nat, 2, 2) /\
  fst (Demo.borrow s) = Returned None (Some ErrPoolExhausted) /\
  Demo.check s' = (2%nat, 2, 2) /\
  Demo.check (Demo.round1 s') = (2%nat, 2, 2).
Proof. repeat split; reflexivity. Qed.


(** * Further properties of the pool *)

Section PoolExtras.
Context {Obj World : Type} (nowFunc : World -> Z * World).
Implicit Types (p q : Pool Obj World) (w v : World) (x : iface Obj).

(** ** Close twice *)

(** X1.  Close is idempotent: on a pool that Close has returned, Close
    changes nothing in the pool and calls no callback. *)
Theorem Close_idempotent p w v :
  Close (fst (Close p w)) v = (fst (Close p w), v).
Proof.
  destruct p as [nw tb dc mi ma it wt cd cl ac il].
  unfold Close. cbn.
  assert (Hw : wrap (wrap (ac - Len il) - 0) = wrap (ac - Len il)).
  { rewrite Z.sub_0_r. apply wrap_small, wrap_in_range. }
  destruct cd as [c|]; destruct dc as [d|]; cbn; rewrite Hw; reflexivity.
Qed.

(** ** What no call changes *)

Lemma framed_same_config p q : framed p q -> same_config p q.
Proof. unfold framed, same_config. intuition. Qed.

Lemma same_config_trans p q r :
  same_config p q -> same_config q r -> same_config p r.
Proof.
  unfold same_config. intros Hpq Hqr.
  decompose [and] Hpq. decompose [and] Hqr. repeat split; congruence.
Qed.

Lemma get_loop_framed p w : framed p (snd (fst (get_loop p w))).
Proof.
  unfold get_loop, reuse_phase.
  destruct (reuse _ _ p w) as [[c p1] w1] eqn:Hr.
  pose proof (reuse_framed _ _ _ _ _ _ _ Hr) as H1.
  destruct c as [x|]; cbn [fst snd]; [exact H1|].
  destruct (acquire p1 w1) as [[r p2] w2] eqn:Ha. cbn [fst snd].
  eapply framed_trans; [exact H1|]. now destruct (acquire_frame _ _ _ _ _ Ha).
Qed.

Lemma Get_framed p w : framed p (snd (fst (Get nowFunc p w))).
Proof.
  unfold Get. pose proof (sweep_phase_framed nowFunc p w) as H1.
  destruct (sweep_phase nowFunc p w) as [p1 w1]. cbn [fst] in H1.
  eapply framed_trans; [exact H1|apply get_loop_framed].
Qed.

Lemma Close_same_config p w : same_config p (fst (Close p w)).
Proof.
  destruct (Close_fields p w) as (H & _). apply framed_same_config in H.
  exact H.
Qed.

Lemma Close_closed p w : closed (fst (Close p w)) = true.
Proof. now destruct (Close_fields p w) as ((_ & _ & _ & _ & _ & _ & _ & H) & _). Qed.

(** What a call other than Close leaves as it was. *)
Lemma apply_op_framed o (s : Pool Obj World * World) :
  o <> OpClose -> framed (fst s) (fst (apply_op nowFunc o s)).
Proof.
  destruct s as [p w]. cbn [fst]. intros Ho.
  destruct o as [| |x| |]; cbn [apply_op fst snd].
  - pose proof (Get_framed p w) as H.
    now destruct (Get nowFunc p w) as [[r p'] w'].
  - pose proof (get_loop_framed p w) as H.
    now destruct (get_loop p w) as [[r p'] w'].
  - apply Put_framed.
  - contradiction.
  - apply framed_refl.
Qed.

Lemma op_is_Close (o : op Obj) : o = OpClose \/ o <> OpClose.
Proof. destruct o; (now left) || (right; discriminate). Qed.

Lemma apply_op_same_config o (s : Pool Obj World * World) :
  same_config (fst s) (fst (apply_op nowFunc o s)).
Proof.
  destruct (op_is_Close o) as [->|Ho].
  - destruct s as [p w]. apply Close_same_config.
  - now apply framed_same_config, apply_op_framed.
Qed.

Lemma apply_op_stays_closed o (s : Pool Obj World * World) :
  closed (fst s) = true -> closed (fst (apply_op nowFunc o s)) = true.
Proof.
  intros Hc. destruct (op_is_Close o) as [->|Ho].
  - destruct s as [p w]. apply Close_closed.
  - destruct (apply_op_framed o s Ho) as (_ & _ & _ & _ & _ & _ & _ & H).
    now rewrite H.
Qed.

Lemma exec_configuration tr p w :
  let q := fst (exec nowFunc tr (p, w)) in
  same_config p q /\
  (closed p = true -> closed q = true) /\
  (~ In OpClose tr -> closed q = closed p).
Proof.
  cbn zeta. unfold exec. revert p w.
  induction tr as [|o tr IH]; intros p w; cbn [fold_left].
  - unfold same_config. cbn [fst]. repeat split; trivial.
  - destruct (apply_op nowFunc o (p, w)) as [p1 w1] eqn:Hop.
    pose proof (apply_op_same_config o (p, w)) as Hcfg.
    pose proof (apply_op_stays_closed o (p, w)) as Hcl.
    pose proof (apply_op_framed o (p, w)) as Hfr.
    rewrite Hop in Hcfg, Hcl, Hfr. cbn [fst] in *.
    destruct (IH p1 w1) as (IH1 & IH2 & IH3).
    split; [eapply same_config_trans; eauto|]. split.
    + intros Hc. apply IH2, Hcl, Hc.
    + intros Hno. rewrite IH3 by (intros Hin; apply Hno; now right).
      assert (Ho : o <> OpClose) by (intros ->; apply Hno; now left).
      now destruct (Hfr Ho) as (_ & _ & _ & _ & _ & _ & _ & ->).
Qed.

(** X2.  No call changes the configuration of a pool.  A closed pool
    stays closed, and a pool that is not closed stays so as long as Close is
    not called. *)
Theorem calls_keep_configuration tr p w :
  let q := fst (exec nowFunc tr (p, w)) in
  same_config p q /\
  (closed p = true -> closed q = true) /\
  (~ In OpClose tr -> closed q = closed p).
Proof. exact (exec_configuration tr p w). Qed.

(** ** Put, then Get *)

Lemma Put_open_front p x w :
  closed p = false -> 1 <= MaxIdle p ->
  exists rest,
    idle (fst (Put nowFunc p x w)) = mkIdle x (fst (nowFunc w)) :: rest /\
    snd (Put nowFunc p x w) =
      (if MaxIdle p <? Len (idle p) + 1
       then call_drop (DropCallback p)
              (obj (last (idle p) (mkIdle x (fst (nowFunc w))))) (snd (nowFunc w))
       else snd (nowFunc w)).
Proof.
  intros Hopen Hmax. unfold Put. rewrite Hopen.
  destruct (nowFunc w) as [now w1]. cbn [fst snd MaxIdle idle set_idle DropCallback].
  unfold PushFront. rewrite Len_cons.
  destruct (Z.ltb_spec (MaxIdle p) (Len (idle p) + 1)) as [Hlt|Hge]; cbn [fst snd].
  - destruct (idle p) as [|io l] eqn:Hidle.
    { cbn in Hlt. lia. }
    exists (RemoveBack (io :: l)). split; [|reflexivity].
    rewrite release_idle. reflexivity.
  - exists (idle p). split; [|reflexivity].
    now rewrite signal_if_cond_idle.
Qed.

(** X3.  Put and Get are a round trip.  On a pool that is not closed, has
    no validator, no timeout eviction and room for at least one idle object,
    the Get that follows Put(x) returns x with a nil error, also when the
    Put evicted the oldest idle object; the Get calls nothing.  When the Put
    evicted nothing, the idle deque and the active count are again what
    they were before the Put. *)
Theorem Put_Get_round_trip p x w :
  closed p = false ->
  TestOnBorrow p = None ->
  IdleTimeout p <= 0 ->
  1 <= MaxIdle p ->
  let s := Put nowFunc p x w in
  let g := Get nowFunc (fst s) (snd s) in
  fst (fst g) = Returned x None /\
  snd g = snd s /\
  (Len (idle p) + 1 <= MaxIdle p ->
   idle (snd (fst g)) = idle p /\
   ActiveCount (snd (fst g)) = ActiveCount p /\
   snd g = snd (nowFunc w)).
Proof.
  intros Hopen Htest Hoff Hmax s g.
  destruct (Put_open_front p x w Hopen Hmax) as (rest & Hidle & Hworld).
  fold s in Hidle, Hworld.
  destruct (Put_framed nowFunc p x w) as (_ & HT & _ & _ & _ & HO & _ & _).
  fold s in HT, HO.
  assert (Hg : g = (Returned x None, set_idle (fst s) rest, snd s)).
  { subst g. unfold Get, sweep_phase.
    destruct (Z.ltb_spec 0 (IdleTimeout (fst s))) as [H|_]; [lia|].
    unfold get_loop, reuse_phase. rewrite Hidle. cbn [length reuse].
    rewrite Hidle. cbn [TestOnBorrow set_idle obj]. now rewrite HT, Htest. }
  rewrite Hg. cbn [fst snd]. split; [reflexivity|]. split; [reflexivity|].
  intros Hfit. unfold ActiveCount. cbn [idle active set_idle].
  assert (Es : s = (signal_if_cond (set_idle p (mkIdle x (fst (nowFunc w)) :: idle p)),
                    snd (nowFunc w))).
  { subst s. apply Put_fits; trivial. }
  clearbody s. subst s. cbn [fst snd] in *.
  rewrite signal_if_cond_idle in Hidle. cbn [idle set_idle] in Hidle.
  injection Hidle as <-.
  rewrite signal_if_cond_active. repeat split.
Qed.

(** X4.  A pool whose MaxIdle is zero or negative keeps nothing.  In every
    state it reaches from a fresh pool its idle deque is empty, and while it
    is not closed a Put releases the very object it was given: the active
    count is decremented and DropCallback, if there is one, receives that
    object. *)
Theorem Put_keeps_nothing p0 w0 tr p w :
  fresh p0 ->
  exec nowFunc tr (p0, w0) = (p, w) ->
  MaxIdle p <= 0 ->
  idle p = [] /\
  forall x,
    closed p = false ->
    Put nowFunc p x w =
      (release p, call_drop (DropCallback p) x (snd (nowFunc w))) /\
    idle (fst (Put nowFunc p x w)) = [].
Proof.
  intros Hfresh Hexec Hmax.
  assert (Htrim : trimmed p).
  { pose proof (exec_inv nowFunc trimmed tr (p0, w0) (trimmed_apply_op nowFunc)) as H.
    rewrite Hexec in H. apply H. cbn [fst].
    destruct Hfresh as (_ & _ & _ & Hidle).
    unfold trimmed. rewrite Hidle. cbn. lia. }
  assert (Hidle : idle p = []).
  { unfold trimmed in Htrim. destruct (idle p) as [|io l]; [reflexivity|].
    rewrite Len_cons in Htrim. pose proof (Len_nonneg l). lia. }
  split; [exact Hidle|]. intros x Hopen.
  assert (HP : Put nowFunc p x w =
               (release p, call_drop (DropCallback p) x (snd (nowFunc w)))).
  { unfold Put. rewrite Hopen. destruct (nowFunc w) as [now w1].
    cbn [fst snd MaxIdle idle set_idle DropCallback]. unfold PushFront.
    rewrite Hidle.
    destruct (Z.ltb_spec (MaxIdle p) (Len [mkIdle x now])) as [_|Hge].
    - cbn [RemoveBack removelast last obj].
      replace (set_idle (set_idle p [mkIdle x now]) []) with p; [reflexivity|].
      rewrite <- (set_idle_same p) at 1. now rewrite Hidle.
    - cbn in Hge. lia. }
  split; [exact HP|]. rewrite HP. cbn [fst]. now rewrite release_idle.
Qed.

(** ** The ledger: how every call moves [active] and [idle] *)

Lemma evict_ledger k a q rest :
  0 <= k -> a <= max_int ->
  Len rest + 1 = Len (idle q) ->
  Len (idle q) + k <= active q <= a ->
  surplus (release (set_idle q rest)) = surplus q /\
  active (release (set_idle q rest)) = active q - 1.
Proof.
  intros Hk Ha Hlen Hq. unfold surplus.
  rewrite release_idle, release_active. cbn [idle active set_idle].
  pose proof (Len_nonneg rest).
  rewrite wrap_small by (unfold in_range, min_int, max_int in *; lia). lia.
Qed.

Lemma settled_refl k p : Len (idle p) + k <= active p -> settled k p p.
Proof. unfold settled. lia. Qed.

Lemma settled_evict k p q rest :
  0 <= k -> active p <= max_int ->
  Len rest + 1 = Len (idle q) ->
  settled k p q -> settled k p (release (set_idle q rest)).
Proof.
  intros Hk Ha Hlen (Hs & Hq).
  destruct (evict_ledger k (active p) q rest Hk Ha Hlen Hq) as (Hs' & Ha').
  unfold settled. rewrite Hs', Ha', release_idle. cbn [idle set_idle]. lia.
Qed.

Lemma sweep_phase_settled k p w :
  0 <= k -> active p <= max_int -> Len (idle p) + k <= active p ->
  settled k p (fst (sweep_phase nowFunc p w)).
Proof.
  intros Hk Ha Hp. apply sweep_phase_inv; [|now apply settled_refl].
  intros q io Hback. apply settled_evict; trivial.
  rewrite (Len_RemoveBack _ _ Hback). reflexivity.
Qed.

Lemma acquire_ledger p w r p' w' :
  in_range (active p) -> active p < max_int ->
  acquire p w = (r, p', w') ->
  surplus p' = surplus p + gain r + panics r /\
  (active p' <= active p \/
   active p' = active p + 1 /\ (MaxActive p = 0 \/ active p < MaxActive p)) /\
  (New p <> None -> panics r = 0).
Proof.
  intros Hr Ha. unfold acquire, surplus.
  rewrite (wrap_small (active p + 1))
    by (unfold in_range, min_int, max_int in *; lia).
  destruct (closed p).
  { intros [= <- <- <-]. cbn [gain panics].
    split; [lia|]. split; [left; lia|reflexivity]. }
  destruct ((MaxActive p =? 0) || (active p <? MaxActive p)) eqn:Hcap.
  - apply capacity_spec in Hcap.
    destruct (New p) as [f|].
    + destruct (f w) as [[x [e|]] w1]; intros [= <- <- <-]; cbn [gain panics].
      * rewrite release_idle, release_active. cbn [idle active set_active].
        rewrite wrap_small by (unfold in_range, min_int, max_int in *; lia).
        split; [lia|]. split; [left; lia|reflexivity].
      * cbn [idle active set_active].
        split; [lia|]. split; [right; now split|reflexivity].
    + intros [= <- <- <-]. cbn [gain panics idle active set_active].
      split; [lia|]. split; [right; now split|]. intros H. now contradiction H.
  - destruct (negb (Wait p)); intros [= <- <- <-]; cbn [gain panics];
      rewrite ?park_idle, ?park_active;
      (split; [lia|]; split; [left; lia|reflexivity]).
Qed.

Lemma get_loop_ledger k p w r p' w' :
  0 <= k -> Len (idle p) + k <= active p -> active p < max_int ->
  get_loop p w = (r, p', w') ->
  surplus p' = surplus p + gain r + panics r /\
  (MaxActive p <> 0 -> active p' <= Z.max (active p) (MaxActive p)) /\
  (New p <> None -> panics r = 0).
Proof.
  intros Hk Hp Ha. unfold get_loop, reuse_phase.
  destruct (reuse _ _ p w) as [[c p1] w1] eqn:Hreuse.
  assert (Hstep : forall q io rest, idle q = io :: rest -> settled k p q ->
                    settled k p (release (set_idle q rest))).
  { intros q io rest Hq. apply settled_evict; trivial; [lia|].
    rewrite Hq, Len_cons. reflexivity. }
  pose proof (reuse_inv (settled k p) _ _ _ _ _ _ _ Hstep
                (settled_refl k p Hp) Hreuse) as Hinv.
  pose proof (reuse_framed _ _ _ _ _ _ _ Hreuse)
    as (HN & _ & _ & _ & HM & _).
  destruct c as [x|].
  - intros [= <- <- <-]. cbn [gain panics].
    destruct Hinv as (q & io & rest & (Hs & Hq) & Hidle & -> & _).
    unfold surplus in *. cbn [idle active set_idle].
    rewrite Hidle, Len_cons in Hs, Hq. repeat split; lia.
  - intros Hacq. destruct Hinv as (Hs & Hq).
    pose proof (Len_nonneg (idle p1)).
    destruct (acquire_ledger p1 w1 r p' w') as (Hs' & Hb & Hn); trivial;
      [unfold in_range, min_int, max_int in *; lia|lia|].
    rewrite HN, HM in *. repeat split; [lia| |exact Hn].
    intros HM0. destruct Hb as [Hb|(Hb & [Hz|Hlt])]; lia.
Qed.

Lemma Get_ledger k p w r p' w' :
  0 <= k -> Len (idle p) + k <= active p -> active p < max_int ->
  Get nowFunc p w = (r, p', w') ->
  surplus p' = surplus p + gain r + panics r /\
  (MaxActive p <> 0 -> active p' <= Z.max (active p) (MaxActive p)) /\
  (New p <> None -> panics r = 0).
Proof.
  intros Hk Hp Ha. unfold Get.
  pose proof (sweep_phase_settled k p w Hk (Z.lt_le_incl _ _ Ha) Hp) as (Hs & Hq).
  pose proof (sweep_phase_framed nowFunc p w) as (HN & _ & _ & _ & HM & _).
  destruct (sweep_phase nowFunc p w) as [p1 w1]. cbn [fst] in *.
  intros Hloop.
  destruct (get_loop_ledger k p1 w1 r p' w') as (Hs' & Hb & Hn); trivial; [lia..|].
  rewrite HN, HM in *. repeat split; [lia| |exact Hn].
  intros HM0. specialize (Hb HM0). lia.
Qed.

Lemma Put_ledger k p x w :
  0 <= k -> Len (idle p) + (k + 1) <= active p <= max_int ->
  surplus (fst (Put nowFunc p x w)) = surplus p - 1 /\
  active (fst (Put nowFunc p x w)) <= active p.
Proof.
  intros Hk Hp. unfold Put, surplus. pose proof (Len_nonneg (idle p)).
  destruct (closed p).
  { cbn [fst]. rewrite release_idle, release_active.
    rewrite wrap_small by (unfold in_range, min_int, max_int in *; lia). lia. }
  destruct (nowFunc w) as [now w1].
  cbn [MaxIdle idle set_idle]. unfold PushFront.
  destruct (MaxIdle p <? Len (mkIdle x now :: idle p)); cbn [fst].
  - rewrite release_idle, release_active. cbn [idle active set_idle].
    rewrite Len_RemoveBack_cons.
    rewrite wrap_small by (unfold in_range, min_int, max_int in *; lia). lia.
  - rewrite signal_if_cond_idle, signal_if_cond_active.
    cbn [idle active set_idle]. rewrite Len_cons. lia.
Qed.

Lemma Close_ledger k p w :
  0 <= k -> Len (idle p) + k <= active p <= max_int ->
  surplus (fst (Close p w)) = surplus p /\
  active (fst (Close p w)) <= active p.
Proof.
  intros Hk Hp. destruct (Close_fields p w) as (_ & Hidle & Hactive).
  unfold surplus. rewrite Hidle, Hactive. pose proof (Len_nonneg (idle p)).
  rewrite wrap_small by (unfold in_range, min_int, max_int in *; lia).
  cbn. lia.
Qed.

(** Along a run: the configuration stays, without panics the surplus is the
    number of objects held, and a positive [MaxActive] bounds [active]. *)
Lemma run_ledger p0 w0 tr p w held :
  fresh p0 -> run nowFunc (p0, w0, []) tr (p, w, held) ->
  Z.of_nat (length tr) <= max_int ->
  same_config p0 p /\
  (New p0 <> None -> surplus p = Len held) /\
  (0 < MaxActive p0 -> active p <= MaxActive p0).
Proof.
  intros Hfresh Hrun.
  remember (p0, w0, @nil (iface Obj)) as s0 eqn:Es0.
  remember (p, w, held) as s eqn:Es.
  revert p w held Es.
  induction Hrun as [|tr s o s' Hrun IH Hstep]; intros p w held Es Hlen.
  - subst. injection Es as <- <- <-.
    destruct Hfresh as (_ & _ & Hactive & Hidle).
    unfold surplus, same_config. rewrite Hactive, Hidle. cbn.
    repeat split; lia.
  - rewrite length_app in Hlen. cbn [length] in Hlen.
    rewrite Nat.add_1_r, Nat2Z.inj_succ in Hlen. unfold Z.succ in Hlen.
    destruct s as [[q v] h]. subst s0.
    pose proof (run_counted nowFunc p0 w0 tr q v h Hfresh Hrun ltac:(lia)) as Hc.
    specialize (IH q v h eq_refl ltac:(lia)).
    destruct IH as (Hcfg & Hsur & Hmax).
    pose proof (Len_nonneg h) as Hh. pose proof (Len_nonneg (idle q)) as Hi.
    unfold counted in Hc.
    assert (HN : New q = New p0) by apply Hcfg.
    assert (HM : MaxActive q = MaxActive p0) by apply Hcfg.
    subst s'. inversion Hstep; subst.
    + match goal with H : Get _ _ _ = (?r, ?p', ?w') |- _ =>
        pose proof (Get_framed q v) as Hfr; rewrite H in Hfr; cbn [fst snd] in Hfr;
        assert (Hlo : Len (idle q) + Len h <= active q) by lia;
        assert (Hhi : active q < max_int) by lia;
        destruct (Get_ledger (Len h) q v r p' w' Hh Hlo Hhi H) as (Hs' & Hb & Hn)
      end.
      rewrite HN, HM in *.
      split; [eapply same_config_trans; [exact Hcfg|now apply framed_same_config]|].
      split.
      * intros Hnew. rewrite gain_borrowed, Hs', (Hn Hnew), (Hsur Hnew). lia.
      * intros Hpos. specialize (Hmax Hpos). specialize (Hb ltac:(lia)). lia.
    + match goal with H : get_loop _ _ = (?r, ?p', ?w') |- _ =>
        pose proof (get_loop_framed q v) as Hfr; rewrite H in Hfr; cbn [fst snd] in Hfr;
        assert (Hlo : Len (idle q) + Len h <= active q) by lia;
        assert (Hhi : active q < max_int) by lia;
        destruct (get_loop_ledger (Len h) q v r p' w' Hh Hlo Hhi H) as (Hs' & Hb & Hn)
      end.
      rewrite HN, HM in *.
      split; [eapply same_config_trans; [exact Hcfg|now apply framed_same_config]|].
      split.
      * intros Hnew. rewrite gain_borrowed, Hs', (Hn Hnew), (Hsur Hnew). lia.
      * intros Hpos. specialize (Hmax Hpos). specialize (Hb ltac:(lia)). lia.
    + assert (Hl : Len (held1 ++ x :: held2) = Len (held1 ++ held2) + 1).
      { unfold Len. rewrite !length_app. cbn [length]. lia. }
      pose proof (Len_nonneg (held1 ++ held2)) as Hh'.
      assert (Hq : Len (idle q) + (Len (held1 ++ held2) + 1) <= active q <= max_int)
        by lia.
      match goal with H : Put _ _ _ _ = _ |- _ =>
        pose proof (Put_framed nowFunc q x v) as Hfr;
        destruct (Put_ledger (Len (held1 ++ held2)) q x v Hh' Hq) as (Hs' & Hb);
        rewrite H in Hfr, Hs', Hb; cbn [fst] in Hfr, Hs', Hb end.
      split; [eapply same_config_trans; [exact Hcfg|now apply framed_same_config]|].
      split.
      * intros Hnew. rewrite Hs', (Hsur Hnew). lia.
      * intros Hpos. specialize (Hmax Hpos). lia.
    + assert (Hq : Len (idle q) + Len held <= active q <= max_int) by lia.
      match goal with H : Close _ _ = _ |- _ =>
        pose proof (Close_same_config q v) as Hfr;
        destruct (Close_ledger (Len held) q v Hh Hq) as (Hs' & Hb);
        rewrite H in Hfr, Hs', Hb; cbn [fst] in Hfr, Hs', Hb end.
      split; [eapply same_config_trans; [exact Hcfg|exact Hfr]|].
      split.
      * intros Hnew. rewrite Hs'. now apply Hsur.
      * intros Hpos. specialize (Hmax Hpos). lia.
    + repeat split; trivial; apply Hcfg.
Qed.

(** X5.  The books balance.  Along every sequence of calls on a fresh pool
    with a factory, where a Put gives back an object that a caller holds, the
    active count is exactly the number of idle objects plus the number of
    objects that callers hold (fewer than 2^63 calls). *)
Theorem active_is_idle_plus_held p0 w0 tr p w held :
  fresh p0 ->
  New p0 <> None ->
  run nowFunc (p0, w0, []) tr (p, w, held) ->
  Z.of_nat (length tr) < 2 ^ 63 ->
  ActiveCount p = Len (idle p) + Len held.
Proof.
  intros Hfresh Hnew Hrun Hlen.
  destruct (run_ledger p0 w0 tr p w held Hfresh Hrun) as (_ & Hs & _).
  { unfold max_int. lia. }
  specialize (Hs Hnew). unfold surplus, ActiveCount in *. lia.
Qed.

(** X6.  MaxActive is kept.  Along every such sequence of calls on a fresh
    pool whose MaxActive is positive, the active count never exceeds
    MaxActive, and neither does the number of objects that callers hold
    together with the idle objects. *)
Theorem active_within_MaxActive p0 w0 tr p w held :
  fresh p0 ->
  0 < MaxActive p0 ->
  run nowFunc (p0, w0, []) tr (p, w, held) ->
  Z.of_nat (length tr) < 2 ^ 63 ->
  ActiveCount p <= MaxActive p0 /\
  Len (idle p) + Len held <= MaxActive p0.
Proof.
  intros Hfresh Hpos Hrun Hlen.
  assert (Hlen' : Z.of_nat (length tr) <= max_int) by (unfold max_int; lia).
  destruct (run_ledger p0 w0 tr p w held Hfresh Hrun Hlen') as (_ & _ & Hb).
  pose proof (run_counted nowFunc p0 w0 tr p w held Hfresh Hrun Hlen') as Hc.
  specialize (Hb Hpos). unfold counted, ActiveCount in *. lia.
Qed.

(** ** A negative [MaxActive] *)

Lemma get_loop_barren p w :
  MaxActive p < 0 -> active p = 0 -> idle p = [] ->
  get_loop p w =
    if closed p then (Returned None (Some ErrPoolClosed), p, w)
    else if negb (Wait p) then (Returned None (Some ErrPoolExhausted), p, w)
    else (Parked, park p, w).
Proof.
  intros HM Ha Hi. unfold get_loop, reuse_phase, acquire.
  rewrite Hi. cbn [length reuse]. rewrite Ha.
  destruct (Z.eqb_spec (MaxActive p) 0) as [E|_]; [lia|].
  destruct (Z.ltb_spec 0 (MaxActive p)) as [E|_]; [lia|].
  reflexivity.
Qed.

Lemma Get_barren p w :
  MaxActive p < 0 -> active p = 0 -> idle p = [] ->
  Get nowFunc p w = get_loop p w.
Proof.
  intros HM Ha Hi. unfold Get, sweep_phase. rewrite Hi. cbn [length sweep].
  now destruct (0 <? IdleTimeout p).
Qed.

Lemma barren_outcome p w :
  MaxActive p < 0 -> active p = 0 -> idle p = [] ->
  let g := get_loop p w in
  gain (fst (fst g)) = 0 /\ MaxActive (snd (fst g)) < 0 /\
  active (snd (fst g)) = 0 /\ idle (snd (fst g)) = [].
Proof.
  intros HM Ha Hi. cbn zeta. rewrite get_loop_barren by trivial.
  destruct (closed p); [now cbn|].
  destruct (negb (Wait p)); cbn [fst snd gain]; [now repeat split|].
  rewrite park_idle, park_active.
  destruct (park_framed p) as (_ & _ & _ & _ & -> & _). now repeat split.
Qed.

(** X7.  A negative MaxActive makes nothing.  Along every sequence of calls
    on a fresh pool whose MaxActive is negative, where a Put gives back an
    object that a caller holds, no caller ever holds an object, nothing is
    idle and the active count is zero; while the pool is not closed and does
    not wait, Get returns ErrPoolExhausted with a nil object and changes
    nothing. *)
Theorem negative_MaxActive_makes_nothing p0 w0 tr p w held :
  fresh p0 ->
  MaxActive p0 < 0 ->
  run nowFunc (p0, w0, []) tr (p, w, held) ->
  held = [] /\ idle p = [] /\ ActiveCount p = 0 /\
  (closed p = false -> Wait p = false ->
   Get nowFunc p w = (Returned None (Some ErrPoolExhausted), p, w)).
Proof.
  intros Hfresh Hneg Hrun.
  assert (Hinv : held = [] /\ MaxActive p < 0 /\ active p = 0 /\ idle p = []).
  { remember (p0, w0, @nil (iface Obj)) as s0 eqn:Es0.
    remember (p, w, held) as s eqn:Es.
    revert p w held Es.
    induction Hrun as [|tr s o s' Hrun IH Hstep]; intros p w held Es.
    - subst. injection Es as <- <- <-.
      destruct Hfresh as (_ & _ & Ha & Hi). now repeat split.
    - destruct s as [[q v] h].
      destruct (IH q v h eq_refl) as (-> & HM & Ha & Hi).
      subst s'. inversion Hstep; subst.
      + match goal with H : Get _ _ _ = _ |- _ =>
          rewrite Get_barren in H by trivial;
          pose proof (barren_outcome q v HM Ha Hi) as Hb; cbn zeta in Hb;
          rewrite H in Hb; cbn [fst snd] in Hb end.
        destruct Hb as (Hg & Hb). split; [|exact Hb].
        destruct r as [y [e|]| |]; cbn in Hg |- *; trivial; discriminate.
      + match goal with H : get_loop _ _ = _ |- _ =>
          pose proof (barren_outcome q v HM Ha Hi) as Hb; cbn zeta in Hb;
          rewrite H in Hb; cbn [fst snd] in Hb end.
        destruct Hb as (Hg & Hb). split; [|exact Hb].
        destruct r as [y [e|]| |]; cbn in Hg |- *; trivial; discriminate.
      + match goal with H : _ ++ _ :: _ = [] |- _ =>
          now destruct held1; discriminate H end.
      + match goal with H : Close _ _ = _ |- _ =>
          destruct (Close_fields q v) as ((_ & _ & _ & _ & HM' & _) & Hi' & Ha');
          rewrite H in HM', Hi', Ha'; cbn [fst] in HM', Hi', Ha' end.
        cbn [MaxActive set_closed] in HM'.
        rewrite Ha, Hi in Ha'. repeat split; trivial; congruence.
      + now repeat split. }
  destruct Hinv as (Hh & HM & Ha & Hi).
  repeat split; trivial.
  intros Hopen Hwait. rewrite Get_barren, get_loop_barren by trivial.
  now rewrite Hopen, Hwait.
Qed.

(** ** Waiting *)

Lemma Get_Parked_inv p w p' w' :
  Get nowFunc p w = (Parked, p', w') ->
  exists p1 w1 p2,
    sweep_phase nowFunc p w = (p1, w1) /\
    reuse_phase p1 w1 = (None, p2, w') /\
    p' = park p2 /\ idle p2 = [] /\ framed p p2 /\
    closed p = false /\ Wait p = true /\
    MaxActive p <> 0 /\ MaxActive p <= active p2.
Proof.
  destruct (sweep_phase nowFunc p w) as [p1 w1] eqn:Hs.
  destruct (reuse_phase p1 w1) as [[c p2] w2] eqn:Hr.
  rewrite (Get_phases _ _ _ _ _ _ _ _ Hs Hr).
  pose proof (phases_framed _ _ _ _ _ _ _ _ Hs Hr) as Hfr.
  destruct c as [y|]; [discriminate|].
  pose proof (reuse_phase_None_empty _ _ _ _ Hr) as Hempty.
  pose proof Hfr as (HN & HT & HD & HI & HM & HO & HW & HC).
  unfold acquire. destruct (closed p2) eqn:Hc; [discriminate|].
  destruct ((MaxActive p2 =? 0) || (active p2 <? MaxActive p2)) eqn:Hcap.
  { destruct (New p2) as [f|]; [|discriminate].
    destruct (f w2) as [[x0 [e|]] w3]; discriminate. }
  destruct (Wait p2) eqn:Hw; cbn [negb]; [|discriminate].
  intros [= <- <-].
  apply orb_false_iff in Hcap. destruct Hcap as [H0 Hlt].
  apply Z.eqb_neq in H0. apply Z.ltb_ge in Hlt.
  exists p1, w1, p2. rewrite <- HC, <- HW, <- HM.
  split; [reflexivity|]. split; [exact Hr|]. split; [reflexivity|].
  split; [exact Hempty|]. split; [exact Hfr|]. now repeat split.
Qed.

(** X8.  When Get blocks.  Get parks in cond.Wait() exactly when the sweep
    and the reuse loop return no object and leave a pool that is not closed,
    with Wait set, a MaxActive that is not zero and an active count that has
    reached it.  The parked caller is added to the waiters of the condition
    variable, which is created if it was nil, and nothing else changes. *)
Theorem Get_parks_iff p w p1 w1 c p2 w2 :
  sweep_phase nowFunc p w = (p1, w1) ->
  reuse_phase p1 w1 = (c, p2, w2) ->
  (fst (fst (Get nowFunc p w)) = Parked <->
   c = None /\ closed p = false /\ Wait p = true /\
   MaxActive p <> 0 /\ MaxActive p <= active p2) /\
  (fst (fst (Get nowFunc p w)) = Parked ->
   Get nowFunc p w = (Parked, park p2, w2) /\
   idle (park p2) = [] /\
   ActiveCount (park p2) = ActiveCount p2 /\
   cond (park p2) = Some (S (match cond p2 with Some n => n | None => O end))).
Proof.
  intros Hs Hr.
  assert (Hfwd : fst (fst (Get nowFunc p w)) = Parked ->
                 Get nowFunc p w = (Parked, park p2, w2) /\
                 c = None /\ idle p2 = [] /\ closed p = false /\ Wait p = true /\
                 MaxActive p <> 0 /\ MaxActive p <= active p2).
  { intros HP.
    destruct (Get nowFunc p w) as [[r p'] w'] eqn:HG. cbn [fst] in HP. subst r.
    destruct (Get_Parked_inv _ _ _ _ HG)
      as (q1 & v1 & q2 & Hs' & Hr' & -> & Hi & _ & Hc & Hw & H0 & Hle).
    rewrite Hs in Hs'. injection Hs' as <- <-.
    rewrite Hr in Hr'. injection Hr' as -> <- <-.
    now repeat split. }
  split; [split|].
  - intros HP. destruct (Hfwd HP) as (_ & Hc & _ & H). now split.
  - intros (-> & Hc & Hw & H0 & Hle).
    rewrite (Get_phases _ _ _ _ _ _ _ _ Hs Hr).
    destruct (phases_framed _ _ _ _ _ _ _ _ Hs Hr)
      as (_ & _ & _ & _ & HM & _ & HW & HC).
    unfold acquire. rewrite HC, Hc, HW, Hw, HM.
    destruct (Z.eqb_spec (MaxActive p) 0) as [E|_]; [contradiction|].
    destruct (Z.ltb_spec (active p2) (MaxActive p)) as [E|_]; [lia|].
    reflexivity.
  - intros HP. destruct (Hfwd HP) as (HG & _ & Hi & _).
    split; [exact HG|]. rewrite park_idle, Hi.
    unfold ActiveCount. rewrite park_active.
    repeat split. unfold park. now destruct (cond p2).
Qed.

(** X9.  A waiter is served by a Put.  When a Get has parked on a pool
    without validator that keeps at least one idle object, and an object is
    then Put, the Put wakes one waiter, and the woken waiter, running the
    loop again, returns that object with a nil error and leaves the idle
    deque empty; the active count does not change. *)
Theorem woken_waiter_gets_put_object p w p1 w1 x :
  closed p = false ->
  TestOnBorrow p = None ->
  1 <= MaxIdle p ->
  Get nowFunc p w = (Parked, p1, w1) ->
  let s := Put nowFunc p1 x w1 in
  idle (fst s) = [mkIdle x (fst (nowFunc w1))] /\
  (exists n, cond p1 = Some (S n) /\ cond (fst s) = Some n) /\
  get_loop (fst s) (snd s) = (Returned x None, set_idle (fst s) [], snd s) /\
  ActiveCount (fst s) = ActiveCount p1.
Proof.
  intros Hopen Htest Hmax HG s.
  destruct (Get_Parked_inv _ _ _ _ HG)
    as (q1 & v1 & p2 & _ & _ & -> & Hi & Hfr & _).
  pose proof (framed_trans _ _ _ Hfr (park_framed p2))
    as (_ & HT & _ & HI & _ & _ & _ & HC).
  assert (Hi1 : idle (park p2) = []) by now rewrite park_idle.
  assert (Es : s = (signal_if_cond
                      (set_idle (park p2) (mkIdle x (fst (nowFunc w1)) :: idle (park p2))),
                    snd (nowFunc w1))).
  { subst s. apply Put_fits; [congruence|]. rewrite Hi1, HI. cbn. lia. }
  clearbody s. subst s. cbn [fst snd]. rewrite Hi1.
  assert (Hidle : idle (signal_if_cond (set_idle (park p2) [mkIdle x (fst (nowFunc w1))]))
                  = [mkIdle x (fst (nowFunc w1))]) by now rewrite signal_if_cond_idle.
  split; [exact Hidle|]. split; [|split].
  - exists (match cond p2 with Some n => n | None => O end).
    unfold park, signal_if_cond. destruct (cond p2); cbn; now split.
  - unfold get_loop, reuse_phase. rewrite Hidle. cbn [length reuse].
    rewrite Hidle. cbn [TestOnBorrow set_idle obj].
    destruct (signal_if_cond_framed (set_idle (park p2) [mkIdle x (fst (nowFunc w1))]))
      as (_ & HT' & _).
    rewrite HT'. cbn [TestOnBorrow set_idle]. now rewrite HT, Htest.
  - unfold ActiveCount. now rewrite signal_if_cond_active.
Qed.

(** ** Get only takes from the ends of the idle deque *)

Lemma segment_refl (l : list (idleObj Obj)) : segment l l.
Proof. exists [], []. now rewrite app_nil_r. Qed.

Lemma segment_trans (l m k : list (idleObj Obj)) :
  segment l m -> segment m k -> segment l k.
Proof.
  intros (a & b & ->) (c & d & ->). exists (a ++ c), (d ++ b).
  now rewrite <- !app_assoc.
Qed.

Lemma segment_RemoveBack (l : list (idleObj Obj)) io :
  Back l = Some io -> segment l (RemoveBack l).
Proof.
  intros H. exists [], [io]. cbn [app]. now apply Back_Some.
Qed.

Lemma segment_tail (io : idleObj Obj) rest : segment (io :: rest) rest.
Proof. exists [io], []. now rewrite app_nil_r. Qed.

Lemma segment_In (l m : list (idleObj Obj)) io :
  segment l m -> In io m -> In io l.
Proof.
  intros (a & b & ->) H. apply in_or_app. right. apply in_or_app. now left.
Qed.

Lemma segment_Forall (P : idleObj Obj -> Prop) l m :
  segment l m -> Forall P l -> Forall P m.
Proof.
  intros Hseg H. apply Forall_forall. intros io Hio.
  rewrite Forall_forall in H. eapply H, segment_In; eauto.
Qed.

Lemma newest_first_app (a b : list (idleObj Obj)) :
  newest_first (a ++ b) -> newest_first a /\ newest_first b.
Proof.
  unfold newest_first. induction a as [|io a IH]; cbn [app]; intros H.
  - split; [constructor|exact H].
  - apply StronglySorted_inv in H. destruct H as [Hs Hf].
    destruct (IH Hs) as [Ha Hb]. split; [|exact Hb].
    constructor; [exact Ha|]. apply Forall_app in Hf. apply Hf.
Qed.

Lemma newest_first_segment (l m : list (idleObj Obj)) :
  segment l m -> newest_first l -> newest_first m.
Proof.
  intros (a & b & ->) H.
  apply newest_first_app in H. destruct H as [_ H].
  apply newest_first_app in H. apply H.
Qed.

Lemma newest_first_snoc (l : list (idleObj Obj)) io :
  newest_first (l ++ [io]) -> Forall (fun o => t io <= t o) l.
Proof.
  unfold newest_first. induction l as [|o l IH]; cbn [app]; intros H.
  - constructor.
  - apply StronglySorted_inv in H. destruct H as [Hs Hf].
    constructor; [|now apply IH].
    apply Forall_app in Hf. destruct Hf as [_ Hf].
    now inversion Hf.
Qed.

Lemma phases_segment p w p1 w1 c p2 w2 :
  sweep_phase nowFunc p w = (p1, w1) ->
  reuse_phase p1 w1 = (c, p2, w2) ->
  segment (idle p) (idle p1) /\ segment (idle p1) (idle p2) /\
  forall x, c = Some x -> exists io, In io (idle p1) /\ obj io = x.
Proof.
  intros Hs Hr.
  assert (H1 : segment (idle p) (idle p1)).
  { pose proof (sweep_phase_inv nowFunc (fun q => segment (idle p) (idle q)) p w) as H.
    rewrite Hs in H. apply H; [|apply segment_refl].
    intros q io Hback Hq. rewrite release_idle. cbn [idle set_idle].
    eapply segment_trans; [exact Hq|]. eapply segment_RemoveBack, Hback. }
  split; [exact H1|].
  assert (Hstep : forall q io rest, idle q = io :: rest ->
            segment (idle p1) (idle q) ->
            segment (idle p1) (idle (release (set_idle q rest)))).
  { intros q io rest Hq Hseg. rewrite release_idle. cbn [idle set_idle].
    eapply segment_trans; [exact Hseg|]. rewrite Hq. apply segment_tail. }
  pose proof (reuse_inv (fun q => segment (idle p1) (idle q)) _ _ _ _ _ _ _
                Hstep (segment_refl _) Hr) as Hinv.
  destruct c as [y|].
  - destruct Hinv as (q & io & rest & Hq & Hidle & -> & ->).
    cbn [idle set_idle]. split.
    + eapply segment_trans; [exact Hq|]. rewrite Hidle. apply segment_tail.
    + intros x [= <-]. exists io. split; [|reflexivity].
      eapply segment_In; [exact Hq|]. rewrite Hidle. now left.
  - split; [exact Hinv|]. intros x Hx. discriminate Hx.
Qed.

Lemma Get_takes_from_the_ends_segment p w :
  segment (idle p) (idle (snd (fst (Get nowFunc p w)))).
Proof.
  destruct (sweep_phase nowFunc p w) as [p1 w1] eqn:Hs.
  destruct (reuse_phase p1 w1) as [[c p2] w2] eqn:Hr.
  destruct (phases_segment _ _ _ _ _ _ _ Hs Hr) as (H1 & H2 & _).
  rewrite (Get_phases _ _ _ _ _ _ _ _ Hs Hr).
  destruct c as [y|]; cbn [fst snd].
  - eapply segment_trans; eauto.
  - destruct (acquire p2 w2) as [[r p3] w3] eqn:Ha. cbn [fst snd].
    destruct (acquire_frame _ _ _ _ _ Ha) as (_ & ->).
    eapply segment_trans; eauto.
Qed.

(** X10.  Get adds nothing to the idle deque and does not reorder it: what
    is idle after Get is what was idle before, without some entries at the
    front and at the back. *)
Theorem Get_takes_from_the_ends p w :
  segment (idle p) (idle (snd (fst (Get nowFunc p w)))) /\
  Len (idle (snd (fst (Get nowFunc p w)))) <= Len (idle p).
Proof.
  pose proof (Get_takes_from_the_ends_segment p w) as H.
  split; [exact H|].
  destruct H as (a & b & ->). unfold Len. rewrite !length_app. lia.
Qed.

(** ** The sweep is complete *)

Lemma sweep_fresh (I : World -> Prop) now drop timeout :
  (forall v, I v -> nowFunc v = (now, v)) ->
  (forall x v, I v -> I (call_drop drop x v)) ->
  forall n p w,
    I w -> (length (idle p) <= n)%nat -> newest_first (idle p) ->
    Forall (fun io => now - t io < timeout)
           (idle (fst (sweep nowFunc n timeout drop p w))).
Proof.
  intros Hclock Hdrop. induction n as [|n IH]; intros p w Hw Hn Hsorted.
  - cbn [sweep fst]. destruct (idle p); [constructor|cbn in Hn; lia].
  - cbn [sweep]. destruct (Back (idle p)) as [io|] eqn:Hback.
    + rewrite (Hclock w Hw).
      pose proof (Back_Some _ _ Hback) as Hidle.
      destruct (Z.ltb_spec now (t io + timeout)) as [Hyoung|Hold]; cbn [fst].
      * rewrite Hidle in Hsorted |- *.
        apply newest_first_snoc in Hsorted.
        apply Forall_app. split.
        -- eapply Forall_impl; [|exact Hsorted]. cbn. intros o Ho. lia.
        -- constructor; [lia|constructor].
      * apply IH.
        -- now apply Hdrop.
        -- rewrite release_idle. cbn [idle set_idle].
           rewrite Hidle, length_app in Hn. cbn in Hn. lia.
        -- rewrite release_idle. cbn [idle set_idle].
           eapply newest_first_segment; [|exact Hsorted].
           eapply segment_RemoveBack, Hback.
    + cbn [fst]. apply Back_None in Hback. rewrite Hback. constructor.
Qed.

(** X11.  No expired object survives the sweep.  With IdleTimeout positive,
    an idle deque whose entries are newest first, and the clock showing now
    while the sweep runs, every entry left by the sweep is younger than
    IdleTimeout; so an object that Get returns from the idle deque was idle
    for less than IdleTimeout. *)
Theorem Get_returns_no_expired_object p w (I : World -> Prop) now :
  0 < IdleTimeout p ->
  I w ->
  (forall v, I v -> nowFunc v = (now, v)) ->
  (forall x v, I v -> I (call_drop (DropCallback p) x v)) ->
  newest_first (idle p) ->
  let p1 := fst (sweep_phase nowFunc p w) in
  let w1 := snd (sweep_phase nowFunc p w) in
  Forall (fun io => now - t io < IdleTimeout p) (idle p1) /\
  forall x p2 w2,
    reuse_phase p1 w1 = (Some x, p2, w2) ->
    Get nowFunc p w = (Returned x None, p2, w2) /\
    exists io, In io (idle p) /\ obj io = x /\ now - t io < IdleTimeout p.
Proof.
  intros Hon Hw Hclock Hdrop Hsorted p1 w1.
  assert (Hfresh : Forall (fun io => now - t io < IdleTimeout p) (idle p1)).
  { subst p1. unfold sweep_phase.
    destruct (Z.ltb_spec 0 (IdleTimeout p)); [|lia].
    apply (sweep_fresh I now); trivial. }
  split; [exact Hfresh|]. intros x p2 w2 Hr.
  assert (Hs : sweep_phase nowFunc p w = (p1, w1)) by (subst p1 w1; apply surjective_pairing).
  split.
  - now rewrite (Get_phases _ _ _ _ _ _ _ _ Hs Hr).
  - destruct (phases_segment _ _ _ _ _ _ _ Hs Hr) as (H1 & _ & Hx).
    destruct (Hx x eq_refl) as (io & Hin & Hobj).
    exists io. repeat split; trivial.
    + eapply segment_In; eauto.
    + rewrite Forall_forall in Hfresh. now apply Hfresh.
Qed.

(** ** The idle deque is ordered by time *)

Section MonotoneClock.
Variable clk : World -> Z.

Lemma monotone_same_config p q :
  same_config p q -> monotone nowFunc clk p -> monotone nowFunc clk q.
Proof.
  intros (HN & HT & HD & _) (Hnow & Hnew & Htest & Hdrop).
  unfold monotone. rewrite HN, HT, HD.
  split; [exact Hnow|]. split; [exact Hnew|]. split; [exact Htest|exact Hdrop].
Qed.

Lemma call_drop_clk p x v :
  monotone nowFunc clk p -> clk v <= clk (call_drop (DropCallback p) x v).
Proof.
  intros (_ & _ & _ & Hdrop). unfold call_drop.
  destruct (DropCallback p) as [d|] eqn:Hd; [now apply Hdrop|lia].
Qed.

Lemma sweep_clk drop timeout :
  (forall v, clk v <= clk (snd (nowFunc v))) ->
  (forall x v, clk v <= clk (call_drop drop x v)) ->
  forall n p w, clk w <= clk (snd (sweep nowFunc n timeout drop p w)).
Proof.
  intros Hnow Hdrop. induction n as [|n IH]; intros p w; cbn [sweep snd]; [lia|].
  destruct (Back (idle p)) as [io|]; cbn [snd]; [|lia].
  pose proof (Hnow w) as H1. destruct (nowFunc w) as [now w1]. cbn [snd] in H1.
  destruct (now <? t io + timeout); cbn [snd]; [exact H1|].
  etransitivity; [exact H1|]. etransitivity; [apply (Hdrop (obj io))|apply IH].
Qed.

Lemma reuse_clk drop :
  (forall x v, clk v <= clk (call_drop drop x v)) ->
  forall n p w r p' w',
    (forall g x v, TestOnBorrow p = Some g -> clk v <= clk (snd (g x v))) ->
    reuse n drop p w = (r, p', w') -> clk w <= clk w'.
Proof.
  intros Hdrop. induction n as [|n IH]; intros p w r p' w' Htest; cbn [reuse].
  - intros [= _ _ <-]. lia.
  - destruct (idle p) as [|io rest]; [intros [= _ _ <-]; lia|].
    cbn [TestOnBorrow set_idle].
    destruct (TestOnBorrow p) as [g|] eqn:Hg; [|intros [= _ _ <-]; lia].
    pose proof (Htest g (obj io) w eq_refl) as H1.
    destruct (g (obj io) w) as [[e|] w1]; cbn [snd] in H1;
      [|intros [= _ _ <-]; exact H1].
    intros Hrec. apply IH in Hrec.
    + etransitivity; [exact H1|]. etransitivity; [apply (Hdrop (obj io))|exact Hrec].
    + destruct (evict_front_framed (World := World) p rest) as (_ & -> & _).
      rewrite Hg. exact Htest.
Qed.

Lemma get_loop_clk p w :
  monotone nowFunc clk p -> clk w <= clk (snd (get_loop p w)).
Proof.
  intros Hm. pose proof Hm as (_ & Hnew & Htest & _).
  unfold get_loop, reuse_phase.
  destruct (reuse _ _ p w) as [[c p1] w1] eqn:Hr.
  assert (H1 : clk w <= clk w1).
  { eapply (reuse_clk (DropCallback p)); [|exact Htest|exact Hr].
    intros x v. now apply call_drop_clk. }
  destruct c as [x|]; cbn [snd]; [exact H1|].
  pose proof (reuse_framed _ _ _ _ _ _ _ Hr) as (HN & _).
  unfold acquire. destruct (closed p1); cbn [snd]; [exact H1|].
  destruct (_ || _).
  - rewrite HN. destruct (New p) as [f|] eqn:Hf; cbn [snd]; [|exact H1].
    pose proof (Hnew f w1 eq_refl) as H2.
    destruct (f w1) as [[x [e|]] w2]; cbn [snd] in *; lia.
  - destruct (negb (Wait p1)); cbn [snd]; exact H1.
Qed.

Lemma Get_clk p w :
  monotone nowFunc clk p -> clk w <= clk (snd (Get nowFunc p w)).
Proof.
  intros Hm. unfold Get.
  assert (H1 : clk w <= clk (snd (sweep_phase nowFunc p w))).
  { unfold sweep_phase. destruct (0 <? IdleTimeout p); cbn [snd]; [|lia].
    apply sweep_clk.
    - intros v. destruct Hm as (Hnow & _). specialize (Hnow v). lia.
    - intros x v. now apply call_drop_clk. }
  pose proof (sweep_phase_framed nowFunc p w) as Hfr.
  destruct (sweep_phase nowFunc p w) as [p1 w1]. cbn [fst snd] in *.
  etransitivity; [exact H1|]. apply get_loop_clk.
  eapply monotone_same_config; [apply framed_same_config, Hfr|exact Hm].
Qed.

Lemma timed_segment p w p' w' :
  segment (idle p) (idle p') -> clk w <= clk w' ->
  timed clk (p, w) -> timed clk (p', w').
Proof.
  intros Hseg Hclk (Hs & Hf). split; cbn [fst snd] in *.
  - eapply newest_first_segment; eauto.
  - eapply segment_Forall; [exact Hseg|].
    eapply Forall_impl; [|exact Hf]. cbn. intros io Hio. lia.
Qed.

Lemma get_loop_segment p w : segment (idle p) (idle (snd (fst (get_loop p w)))).
Proof.
  unfold get_loop, reuse_phase.
  destruct (reuse _ _ p w) as [[c p2] w2] eqn:Hr.
  assert (Hstep : forall q io rest, idle q = io :: rest ->
            segment (idle p) (idle q) ->
            segment (idle p) (idle (release (set_idle q rest)))).
  { intros q io rest Hq Hseg. rewrite release_idle. cbn [idle set_idle].
    eapply segment_trans; [exact Hseg|]. rewrite Hq. apply segment_tail. }
  pose proof (reuse_inv (fun q => segment (idle p) (idle q)) _ _ _ _ _ _ _
                Hstep (segment_refl _) Hr) as Hinv.
  destruct c as [y|]; cbn [fst snd].
  - destruct Hinv as (q & io & rest & Hq & Hidle & -> & _).
    cbn [idle set_idle].
    eapply segment_trans; [exact Hq|]. rewrite Hidle. apply segment_tail.
  - destruct (acquire p2 w2) as [[r p3] w3] eqn:Ha. cbn [fst snd].
    now destruct (acquire_frame _ _ _ _ _ Ha) as (_ & ->).
Qed.

Lemma timed_Put p x w :
  monotone nowFunc clk p -> timed clk (p, w) -> timed clk (Put nowFunc p x w).
Proof.
  intros Hm (Hs & Hf). cbn [fst snd] in *.
  pose proof Hm as (Hnow & _). unfold Put.
  destruct (closed p).
  { apply (timed_segment p w); [|apply (call_drop_clk p x w Hm)|now split].
    rewrite release_idle. apply segment_refl. }
  specialize (Hnow w). destruct (nowFunc w) as [now w1]. cbn [fst snd] in Hnow.
  assert (Hpushed : timed clk (set_idle p (PushFront (mkIdle x now) (idle p)), w1)).
  { split; cbn [fst snd idle set_idle]; unfold PushFront.
    - constructor; [exact Hs|].
      eapply Forall_impl; [|exact Hf]. cbn. intros io Hio. lia.
    - constructor; [cbn; lia|].
      eapply Forall_impl; [|exact Hf]. cbn. intros io Hio. lia. }
  cbn [MaxIdle idle set_idle DropCallback]. unfold PushFront in *.
  destruct (MaxIdle p <? Len (mkIdle x now :: idle p)).
  - eapply timed_segment; [| |exact Hpushed].
    + rewrite release_idle. cbn [idle set_idle].
      now apply (segment_RemoveBack _ (last (mkIdle x now :: idle p) (mkIdle x now))).
    + apply (call_drop_clk p). exact Hm.
  - eapply timed_segment; [| |exact Hpushed].
    + rewrite signal_if_cond_idle. apply segment_refl.
    + lia.
Qed.

Lemma timed_apply_op o (s : Pool Obj World * World) :
  monotone nowFunc clk (fst s) -> timed clk s -> timed clk (apply_op nowFunc o s).
Proof.
  destruct s as [p w]. cbn [fst]. intros Hm Ht.
  destruct o as [| |x| |]; cbn [apply_op fst snd].
  - pose proof (Get_takes_from_the_ends_segment p w) as Hseg.
    pose proof (Get_clk p w Hm) as Hclk.
    destruct (Get nowFunc p w) as [[r p'] w']. cbn [fst snd] in *.
    eapply timed_segment; eauto.
  - pose proof (get_loop_segment p w) as Hseg.
    pose proof (get_loop_clk p w Hm) as Hclk.
    destruct (get_loop p w) as [[r p'] w']. cbn [fst snd] in *.
    eapply timed_segment; eauto.
  - now apply timed_Put.
  - destruct (Close_fields p w) as (_ & Hidle & _).
    destruct (Close p w) as [p' w']. cbn [fst] in Hidle.
    split; cbn [fst snd]; rewrite Hidle; constructor.
  - exact Ht.
Qed.

(** X12.  The idle deque is ordered by time.  When the clock never goes
    back (neither by itself nor in a callback), then in every state that a
    fresh pool reaches the entries of the idle deque are newest first, and no
    entry is younger than the clock: the back entry is the oldest, which is
    what lets the sweep stop at the first entry that has not expired. *)
Theorem idle_deque_newest_first p0 w0 tr p w :
  fresh p0 ->
  monotone nowFunc clk p0 ->
  exec nowFunc tr (p0, w0) = (p, w) ->
  newest_first (idle p) /\
  Forall (fun io => t io <= clk w) (idle p).
Proof.
  intros Hfresh Hm.
  assert (H : forall s, monotone nowFunc clk (fst s) -> timed clk s ->
                        timed clk (exec nowFunc tr s)).
  { unfold exec. induction tr as [|o tr' IH]; intros s Hs Ht; cbn [fold_left].
    - exact Ht.
    - apply IH.
      + eapply monotone_same_config; [apply apply_op_same_config|exact Hs].
      + now apply timed_apply_op. }
  intros Hexec. specialize (H (p0, w0) Hm). rewrite Hexec in H. apply H.
  destruct Hfresh as (_ & _ & _ & Hidle).
  split; cbn [fst snd]; rewrite Hidle; constructor.
Qed.

End MonotoneClock.

(** ** MaxIdle in every state *)

(** X13.  MaxIdle is kept in every state, not only after a Put: whatever
    calls a fresh pool has seen, its idle deque holds at most MaxIdle
    objects, and none when MaxIdle is negative. *)
Theorem idle_within_MaxIdle p0 w0 tr p w :
  fresh p0 ->
  exec nowFunc tr (p0, w0) = (p, w) ->
  MaxIdle p = MaxIdle p0 /\
  Len (idle p) <= Z.max 0 (MaxIdle p0).
Proof.
  intros Hfresh Hexec.
  pose proof (exec_inv nowFunc trimmed tr (p0, w0) (trimmed_apply_op nowFunc)) as H.
  destruct (exec_configuration tr p0 w0) as ((_ & _ & _ & HM & _) & _).
  rewrite Hexec in H, HM. cbn [fst] in H, HM.
  split; [exact HM|]. rewrite <- HM. apply H.
  destruct Hfresh as (_ & _ & _ & Hidle).
  unfold trimmed. rewrite Hidle. cbn. lia.
Qed.

End PoolExtras.

(** * The further properties at work on the dialer of the test suite *)

Lemma Put_Get_round_trip_witness :
  let p := Demo.pool 2 in
  let w := Demo.start in
  let s := Put Demo.nowFunc p (Some 7%nat) w in
  closed p = false /\
  TestOnBorrow p = None /\
  IdleTimeout p <= 0 /\
  1 <= MaxIdle p /\
  fst (fst (Get Demo.nowFunc (fst s) (snd s))) = Returned (Some 7%nat) None.
Proof.
  intros p w s.
  assert (Hopen : closed p = false) by reflexivity.
  assert (Htest : TestOnBorrow p = None) by reflexivity.
  assert (Hoff : IdleTimeout p <= 0) by (vm_compute; discriminate).
  assert (Hmax : 1 <= MaxIdle p) by (vm_compute; discriminate).
  repeat (split; [assumption|]).
  exact (proj1 (Put_Get_round_trip Demo.nowFunc p (Some 7%nat) w
                  Hopen Htest Hoff Hmax)).
Defined.

Lemma Put_keeps_nothing_witness :
  let tr := [OpGet; OpGet; OpPut (Some 0%nat)] in
  let s := exec Demo.nowFunc tr (Demo.pool 0, Demo.start) in
  fresh (Demo.pool 0) /\
  exec Demo.nowFunc tr (Demo.pool 0, Demo.start) = (fst s, snd s) /\
  MaxIdle (fst s) <= 0 /\
  idle (fst s) = [] /\
  Demo.dropped (snd s) = [Some 0%nat].
Proof.
  intros tr s.
  assert (Hfresh : fresh (Demo.pool 0)) by (repeat split).
  assert (Hexec : exec Demo.nowFunc tr (Demo.pool 0, Demo.start) = (fst s, snd s))
    by reflexivity.
  assert (Hmax : MaxIdle (fst s) <= 0) by (vm_compute; discriminate).
  repeat (split; [assumption|]).
  split; [|reflexivity].
  exact (proj1 (Put_keeps_nothing Demo.nowFunc (Demo.pool 0) Demo.start tr
                  (fst s) (snd s) Hfresh Hexec Hmax)).
Defined.

(** A session on [Demo.limited]: two objects are taken, a third Get finds
    the pool exhausted, object 1 comes back and is taken again, and the pool
    is closed while callers hold both objects. *)
Lemma limited_session :
  let tr := [OpGet; OpGet; OpGet; OpPut (Some 1%nat); OpGet; OpClose] in
  let s := exec Demo.nowFunc tr (Demo.limited, Demo.start) in
  run Demo.nowFunc (Demo.limited, Demo.start, []) tr
      (fst s, snd s, [Some 1%nat; Some 0%nat]).
Proof.
  intros tr s. subst tr s.
  eapply run_cons; [apply step_get; reflexivity|].
  eapply run_cons; [apply step_get; reflexivity|].
  eapply run_cons; [apply step_get; reflexivity|].
  eapply run_cons;
    [apply (step_put Demo.nowFunc _ _ [] (Some 1%nat) [Some 0%nat]); reflexivity|].
  eapply run_cons; [apply step_get; reflexivity|].
  eapply run_cons; [apply step_close; reflexivity|].
  apply run_nil.
Qed.

Lemma active_is_idle_plus_held_witness :
  let tr := [OpGet; OpGet; OpGet; OpPut (Some 1%nat); OpGet; OpClose] in
  let s := exec Demo.nowFunc tr (Demo.limited, Demo.start) in
  fresh Demo.limited /\
  New Demo.limited <> None /\
  Z.of_nat (length tr) < 2 ^ 63 /\
  ActiveCount (fst s) = Len (idle (fst s)) + Len [Some 1%nat; Some 0%nat].
Proof.
  intros tr s.
  assert (Hfresh : fresh Demo.limited) by (repeat split).
  assert (Hnew : New Demo.limited <> None) by discriminate.
  assert (Hlen : Z.of_nat (length tr) < 2 ^ 63) by (vm_compute; reflexivity).
  repeat (split; [assumption|]).
  exact (active_is_idle_plus_held Demo.nowFunc Demo.limited Demo.start tr
           (fst s) (snd s) _ Hfresh Hnew limited_session Hlen).
Defined.

Lemma active_within_MaxActive_witness :
  let tr := [OpGet; OpGet; OpGet; OpPut (Some 1%nat); OpGet; OpClose] in
  let s := exec Demo.nowFunc tr (Demo.limited, Demo.start) in
  fresh Demo.limited /\
  0 < MaxActive Demo.limited /\
  Z.of_nat (length tr) < 2 ^ 63 /\
  ActiveCount (fst s) <= MaxActive Demo.limited /\
  Len (idle (fst s)) + Len [Some 1%nat; Some 0%nat] <= MaxActive Demo.limited.
Proof.
  intros tr s.
  assert (Hfresh : fresh Demo.limited) by (repeat split).
  assert (Hpos : 0 < MaxActive Demo.limited) by reflexivity.
  assert (Hlen : Z.of_nat (length tr) < 2 ^ 63) by (vm_compute; reflexivity).
  repeat (split; [assumption|]).
  exact (active_within_MaxActive Demo.nowFunc Demo.limited Demo.start tr
           (fst s) (snd s) _ Hfresh Hpos limited_session Hlen).
Defined.
